(** * Freivalds' check of a matrix product: a model of the notebook code

    The notebook defines three pieces of Python over NumPy:

    - [is_correct_mult A B C k]: Freivalds' randomized test of [A @ B = C];
    - [make_test n]: a random instance whose product has one perturbed cell;
    - the experiment cell sweeping the dimension and counting detections.

    The code is modelled twice.  In the first model array entries are exact
    rationals ([Qc], canonical fractions with Leibniz equality): it carries
    the control flow, NumPy's shape checks, the threading of the random
    state, and Freivalds' guarantees as they hold in exact arithmetic.  The
    module [Float64] models the verifier on binary64 entries, the
    arithmetic NumPy performs; the runs on which rounding makes the code
    depart from those guarantees are evaluated there.  Every array
    operation returns a [result], and fails with [ValueError] exactly where
    NumPy raises.  The global random state is threaded explicitly. *)

From Stdlib Require Import List Finite ZArith NArith Lia Bool Arith.
From Stdlib Require Import QArith Qcanon Field.
From Stdlib Require Import PrimFloat FloatOps SpecFloat Uint63.
Import ListNotations.

Set Implicit Arguments.

(** ** Scalars *)

Local Open Scope Qc_scope.

(** [x != 0] on array entries, as a boolean: the test behind [ndarray.any]. *)
Definition Qc_nonzero (x : Qc) : bool := negb (Qeq_bool (this x) (this 0)).

(** Equality test on entries. *)
Definition Qc_eqb (x y : Qc) : bool := Qeq_bool (this x) (this y).

(** ** Arrays *)

(** A 1-D array. *)
Abbreviation vector := (list Qc) (only parsing).

(** A 2-D array with its [shape]: NumPy distinguishes a 0-by-3 array from a
    0-by-0 one, so the shape is stored and not recomputed from the rows. *)
Record ndarray : Type := mk_ndarray
  { shape0 : nat;
    shape1 : nat;
    rows : list vector }.

(** The rows agree with the declared shape. *)
Definition wf_ndarray (M : ndarray) : Prop :=
  length (rows M) = shape0 M /\
  Forall (fun r => length r = shape1 M) (rows M).

Definition wf_ndarrayb (M : ndarray) : bool :=
  Nat.eqb (length (rows M)) (shape0 M) &&
  forallb (fun r => Nat.eqb (length r) (shape1 M)) (rows M).

(** [M] is a square array of dimension [n]. *)
Definition square (n : nat) (M : ndarray) : Prop :=
  wf_ndarray M /\ shape0 M = n /\ shape1 M = n.

(** The exceptions NumPy can raise in this code: [ValueError] on incompatible
    shapes, a negative dimension or an empty sampling range; [IndexError] on
    an index outside an axis. *)
Inductive exn : Type :=
| ValueError
| IndexError.

(** Outcome of a NumPy call: a value or a raised exception. *)
Inductive result (A : Type) : Type :=
| Ok : A -> result A
| Raise : exn -> result A.

Arguments Ok {A} _.
Arguments Raise {A} _.

(** *** Unchecked arithmetic on rows *)

Fixpoint dot (u v : vector) : Qc :=
  match u, v with
  | a :: u', b :: v' => a * b + dot u' v'
  | _, _ => 0
  end.

Definition matvec (M : list vector) (v : vector) : vector :=
  map (fun r => dot r v) M.

Fixpoint vsub (u v : vector) : vector :=
  match u, v with
  | a :: u', b :: v' => (a - b) :: vsub u' v'
  | _, _ => []
  end.

(** Column [j] of a list of rows. *)
Definition col (j : nat) (M : list vector) : vector :=
  map (fun r => nth j r 0) M.

(** Entry [(i, j)] of the product is the dot product of row [i] of the left
    factor with column [j] of the right one. *)
Definition matmul_rows (A : list vector) (p : nat) (B : list vector)
  : list vector :=
  map (fun r => map (fun j => dot r (col j B)) (seq 0 p)) A.

Fixpoint msub_rows (A B : list vector) : list vector :=
  match A, B with
  | a :: A', b :: B' => vsub a b :: msub_rows A' B'
  | _, _ => []
  end.

(** *** The NumPy operations the code calls *)

(** [M @ v] for a 2-D [M] and a 1-D [v]: the inner dimensions must agree. *)
Definition matvec_np (M : ndarray) (v : vector) : result vector :=
  if Nat.eqb (shape1 M) (length v) then Ok (matvec (rows M) v)
  else Raise ValueError.

(** [A @ B] for 2-D arrays. *)
Definition matmul_np (A B : ndarray) : result ndarray :=
  if Nat.eqb (shape1 A) (shape0 B)
  then Ok (mk_ndarray (shape0 A) (shape1 B)
             (matmul_rows (rows A) (shape1 B) (rows B)))
  else Raise ValueError.

(** [u - v] on 1-D arrays, with NumPy broadcasting: equal lengths, or one
    operand of length 1 stretched to the length of the other. *)
Definition sub_np (u v : vector) : result vector :=
  if Nat.eqb (length u) (length v) then Ok (vsub u v)
  else match u, v with
       | [a], _ => Ok (map (fun b => a - b) v)
       | _, [b] => Ok (map (fun a => a - b) u)
       | _, _ => Raise ValueError
       end.

(** [res.any()]: some entry is different from zero. *)
Definition any_np (v : vector) : bool := existsb Qc_nonzero v.

(** ** The random source *)

(** NumPy's global generator, abstracted: an unbounded supply of words, one
    word standing for the entropy of one sampled value (the generator
    itself may read several raw outputs for a value, or none), and the
    number of words consumed so far. *)
Record RandomState : Type := mk_RandomState
  { tape : nat -> N;
    pos : nat }.

Definition advance (st : RandomState) (m : nat) : RandomState :=
  mk_RandomState (tape st) (pos st + m).

(** Computations that draw from the generator and may raise. *)
Definition Rand (A : Type) : Type := RandomState -> result A * RandomState.

Definition ret {A} (a : A) : Rand A := fun st => (Ok a, st).

Definition raise {A} (e : exn) : Rand A := fun st => (Raise e, st).

Definition bind {A B} (m : Rand A) (f : A -> Rand B) : Rand B :=
  fun st =>
    match m st with
    | (Ok a, st') => f a st'
    | (Raise e, st') => (Raise e, st')
    end.

Definition lift {A} (r : result A) : Rand A := fun st => (r, st).

Notation "x <- m ;; f" := (bind m (fun x => f))
  (at level 61, m at next level, right associativity).

(** One raw word. *)
Definition next_word : Rand N :=
  fun st => (Ok (tape st (pos st)), advance st 1).

(** [m] raw words, in drawing order. *)
Fixpoint next_words (m : nat) : Rand (list N) :=
  match m with
  | O => ret []
  | S m' => w <- next_word ;; ws <- next_words m' ;; ret (w :: ws)
  end.

(** [np.random.random()]: a float of the half-open interval [0.0, 1.0), a
    53-bit fraction. *)
Definition unit_of_word (w : N) : Qc :=
  Q2Qc (Z.of_N (N.modulo w (2 ^ 53)) # (2 ^ 53)).

Definition random_sample : Rand Qc :=
  w <- next_word ;; ret (unit_of_word w).

(** [np.random.random((r, c))]. *)
Fixpoint random_rows (r c : nat) : Rand (list vector) :=
  match r with
  | O => ret []
  | S r' =>
      ws <- next_words c ;;
      rest <- random_rows r' c ;;
      ret (map unit_of_word ws :: rest)
  end.

Definition random_matrix (r c : Z) : Rand ndarray :=
  if (r <? 0)%Z || (c <? 0)%Z then raise ValueError
  else
    rs <- random_rows (Z.to_nat r) (Z.to_nat c) ;;
    ret (mk_ndarray (Z.to_nat r) (Z.to_nat c) rs).

(** An integer of [low, high) from a word: the range NumPy samples from,
    not the algorithm it samples with. *)
Definition int_of_word (low high : Z) (w : N) : Z :=
  (low + Z.of_N w mod (high - low))%Z.

(** [np.random.randint(low, high, size)]: [size] integers of [low, high);
    NumPy raises when the range is empty. *)
Definition randint (low high : Z) (size : nat) : Rand (list Z) :=
  if (high <=? low)%Z then raise ValueError
  else ws <- next_words size ;; ret (map (int_of_word low high) ws).

(** Integer arrays are promoted to the entry type when they meet a float
    array in [@]. *)
Definition Qc_of_Z (z : Z) : Qc := Q2Qc (inject_Z z).

(** ** The verifier *)

(** One pass of the loop body of [is_correct_mult]: draw [X], form
    [res = A @ (B @ X) - (C @ X)] and test [res.any()]. *)
Definition residual_np (A B C : ndarray) (X : vector) : result vector :=
  match matvec_np B X with
  | Ok bx =>
      match matvec_np A bx with
      | Ok abx =>
          match matvec_np C X with
          | Ok cx => sub_np abx cx
          | Raise e => Raise e
          end
      | Raise e => Raise e
      end
  | Raise e => Raise e
  end.

(** The [for _ in range(k)] loop, by recursion on the iterations left. *)
Fixpoint freivalds_loop (A B C : ndarray) (n : nat) (iters : nat)
  : Rand bool :=
  match iters with
  | O => ret true
  | S iters' =>
      X <- randint 0 2 n ;;
      res <- lift (residual_np A B C (map Qc_of_Z X)) ;;
      if any_np res then ret false
      else freivalds_loop A B C n iters'
  end.

(** [is_correct_mult(A, B, C, k)]; [range(k)] is empty for [k <= 0]. *)
Definition is_correct_mult (A B C : ndarray) (k : Z) : Rand bool :=
  let n := shape0 A in
  freivalds_loop A B C n (Z.to_nat k).

(** ** The case generator *)

(** NumPy indexing along an axis of length [len]: indices of [-len, len) are
    valid, the negative ones counting from the end. *)
Definition norm_index (len : nat) (i : Z) : option nat :=
  if (0 <=? i)%Z && (i <? Z.of_nat len)%Z then Some (Z.to_nat i)
  else if (- Z.of_nat len <=? i)%Z && (i <? 0)%Z
       then Some (Z.to_nat (i + Z.of_nat len))
       else None.

Fixpoint update_nth {A} (k : nat) (f : A -> A) (l : list A) : list A :=
  match l, k with
  | [], _ => []
  | x :: l', O => f x :: l'
  | x :: l', S k' => x :: update_nth k' f l'
  end.

(** [M[i, j] += t]. *)
Definition add_at (M : ndarray) (i j : Z) (t : Qc) : result ndarray :=
  match norm_index (shape0 M) i, norm_index (shape1 M) j with
  | Some i', Some j' =>
      Ok (mk_ndarray (shape0 M) (shape1 M)
            (update_nth i' (update_nth j' (fun x => x + t)) (rows M)))
  | _, _ => Raise IndexError
  end.

(** [make_test(n)]: random [A] and [B], their product, and one cell of a copy
    of the product increased by a random amount. *)
Definition make_test (n : Z) : Rand (ndarray * ndarray * ndarray) :=
  A <- random_matrix n n ;;
  B <- random_matrix n n ;;
  correct <- lift (matmul_np A B) ;;
  let incorrect := correct in
  ij <- randint 0 n 2 ;;
  match ij with
  | [i; j] =>
      t <- random_sample ;;
      incorrect' <- lift (add_at incorrect i j t) ;;
      ret (A, B, incorrect')
  | _ => raise ValueError
  end.

(** ** The experiment *)

(** One trial: an instance from [make_test], then the two verdicts of
    [is_correct_mult], with [k = 1] (the default) and with [k = 2]. *)
Definition trial (n : Z) : Rand (bool * bool) :=
  ABC <- make_test n ;;
  let '(A, B, C) := ABC in
  v1 <- is_correct_mult A B C 1 ;;
  v2 <- is_correct_mult A B C 2 ;;
  ret (v1, v2).

(** [x += 1 if not v else 0]. *)
Definition bump (x : Z) (v : bool) : Z :=
  (x + (if negb v then 1 else 0))%Z.

(** The inner [for _ in range(trials)] loop with its two counters. *)
Fixpoint trials_loop (n : Z) (iters : nat) (good_answers good_answers_with_k2 : Z)
  : Rand (Z * Z) :=
  match iters with
  | O => ret (good_answers, good_answers_with_k2)
  | S iters' =>
      v <- trial n ;;
      trials_loop n iters' (bump good_answers (fst v))
        (bump good_answers_with_k2 (snd v))
  end.

(** The outer [for n in range(lo, hi+1)] loop, appending to the two lists. *)
Fixpoint sweep_loop (ns : list Z) (trials : Z)
  (good_counts good_counts_with_k2 : list Z) : Rand (list Z * list Z) :=
  match ns with
  | [] => ret (good_counts, good_counts_with_k2)
  | n :: ns' =>
      g <- trials_loop n (Z.to_nat trials) 0 0 ;;
      sweep_loop ns' trials (good_counts ++ [fst g])
        (good_counts_with_k2 ++ [snd g])
  end.

(** Python's [range(a, b)]. *)
Definition range (a b : Z) : list Z :=
  map (fun i => (a + Z.of_nat i)%Z) (seq 0 (Z.to_nat (b - a))).

(** The experiment cell, with its three constants as parameters. *)
Definition experiment (lo hi trials : Z) : Rand (list Z * list Z) :=
  sweep_loop (range lo (hi + 1)) trials [] [].

(** The cell as written: [lo, hi = 2, 100] and 10,000 trials. *)
Definition good_counts_cell : Rand (list Z * list Z) :=
  experiment 2 100 10000.

(** ** Vocabulary of the statements *)

(** The words the next [n] draws will read. *)
Definition words (st : RandomState) (n : nat) : list N :=
  map (fun i => tape st (pos st + i)) (seq 0 n).

(** The vector [X] that repetition [i] (counted from 0) of a run started in
    [st] draws, each repetition reading [n] words. *)
Definition drawn_X (st : RandomState) (n i : nat) : vector :=
  map Qc_of_Z (map (int_of_word 0 2) (words (advance st (i * n)) n)).

(** The residual the loop body computes, [A @ (B @ X) - C @ X], on arrays
    whose shapes agree. *)
Definition residual (A B C : ndarray) (X : vector) : vector :=
  vsub (matvec (rows A) (matvec (rows B) X)) (matvec (rows C) X).

(** The residual formed from the full product, [(A @ B - C) @ X]. *)
Definition naive_residual (A B C : ndarray) (X : vector) : vector :=
  matvec (msub_rows (matmul_rows (rows A) (shape1 B) (rows B)) (rows C)) X.

(** Entry [(i, j)] of a 2-D array. *)
Definition cell (M : ndarray) (i j : nat) : Qc :=
  nth j (nth i (rows M) []) 0.

(** All vectors of [{0,1}^n], as lists of bits. *)
Fixpoint all_bits (n : nat) : list (list bool) :=
  match n with
  | O => [[]]
  | S n' => map (cons false) (all_bits n') ++ map (cons true) (all_bits n')
  end.

Definition vector_of_bits (x : list bool) : vector :=
  map (fun b : bool => if b then 1 else 0) x.

(** The residual of [X] is entirely zero: [X] does not expose the error. *)
Definition zero_residual (A B C : ndarray) (x : list bool) : bool :=
  negb (any_np (residual A B C (vector_of_bits x))).

(** Bits [i * n], ..., [i * n + n - 1] of a list of bits. *)
Definition chunk (bits : list bool) (n i : nat) : list bool :=
  map (fun j => nth (i * n + j) bits false) (seq 0 n).

(** Each of the first [k] chunks of [n] bits has a zero residual. *)
Definition all_pass (A B C : ndarray) (n k : nat) (bits : list bool) : bool :=
  forallb (fun i => zero_residual A B C (chunk bits n i)) (seq 0 k).

(** A generator whose first words are the given bits. *)
Definition seeded (bits : list bool) : RandomState :=
  mk_RandomState (fun i => N.b2n (nth i bits false)) 0.

(** The first repetition, among [iters] of them numbered from [start], whose
    residual [r i] has a nonzero entry. *)
Fixpoint first_nonzero (r : nat -> vector) (start iters : nat) : option nat :=
  match iters with
  | O => None
  | S iters' =>
      if any_np (r start) then Some start
      else first_nonzero r (S start) iters'
  end.

(** The run ended with the verdict [True]. *)
Definition accepts (r : result bool * RandomState) : bool :=
  match fst r with
  | Ok true => true
  | _ => false
  end.

(** The shapes on which one pass of the loop body goes through in NumPy:
    the three products are defined and the two sides of the subtraction
    broadcast against each other. *)
Definition shapes_compatible (A B C : ndarray) : bool :=
  Nat.eqb (shape1 B) (shape0 A) &&
  Nat.eqb (shape1 A) (shape0 B) &&
  Nat.eqb (shape1 C) (shape0 A) &&
  (Nat.eqb (shape0 A) (shape0 C) ||
   Nat.eqb (shape0 A) 1 || Nat.eqb (shape0 C) 1).




(** *** The experiment with its trials written down

    The same loops as [trials_loop] and [sweep_loop], keeping the pair of
    verdicts of every trial instead of the two counters. *)
Fixpoint trials_log (n : Z) (iters : nat) : Rand (list (bool * bool)) :=
  match iters with
  | O => ret []
  | S iters' =>
      v <- trial n ;;
      vs <- trials_log n iters' ;;
      ret (v :: vs)
  end.

Fixpoint sweep_log (ns : list Z) (trials : Z)
  : Rand (list (list (bool * bool))) :=
  match ns with
  | [] => ret []
  | n :: ns' =>
      log <- trials_log n (Z.to_nat trials) ;;
      logs <- sweep_log ns' trials ;;
      ret (log :: logs)
  end.

(** Number of trials of a log whose verdict was [False], for [k = 1] and
    for [k = 2]. *)
Definition detections (log : list (bool * bool)) : Z :=
  Z.of_nat (length (filter (fun v => negb (fst v)) log)).

Definition detections_with_k2 (log : list (bool * bool)) : Z :=
  Z.of_nat (length (filter (fun v => negb (snd v)) log)).

(** Boolean versions of the shape predicates and of array equality. *)
Definition squareb (n : nat) (M : ndarray) : bool :=
  wf_ndarrayb M && Nat.eqb (shape0 M) n && Nat.eqb (shape1 M) n.

Fixpoint list_eqb {T : Type} (eqb : T -> T -> bool) (l1 l2 : list T)
  : bool :=
  match l1, l2 with
  | [], [] => true
  | x :: l1', y :: l2' => eqb x y && list_eqb eqb l1' l2'
  | _, _ => false
  end.

Definition ndarray_eqb (M N : ndarray) : bool :=
  Nat.eqb (shape0 M) (shape0 N) && Nat.eqb (shape1 M) (shape1 N) &&
  list_eqb (list_eqb Qc_eqb) (rows M) (rows N).

(** ** Sample inputs *)

(** A 2-D array of integers, promoted to the entry type. *)
Definition array_of (r c : nat) (l : list (list Z)) : ndarray :=
  mk_ndarray r c (map (map Qc_of_Z) l).

(** The identity, a second factor, their product, and the product with
    cell (1, 1) changed from 5 to 6. *)
Definition sample_A : ndarray := array_of 2 2 [[1; 0]; [0; 1]]%Z.
Definition sample_B : ndarray := array_of 2 2 [[2; 3]; [4; 5]]%Z.
Definition sample_C : ndarray := array_of 2 2 [[2; 3]; [4; 5]]%Z.
Definition sample_C_wrong : ndarray := array_of 2 2 [[2; 3]; [4; 6]]%Z.

(** The 0-by-0 array. *)
Definition empty_array : ndarray := mk_ndarray 0 0 [].

(** Arrays that are not square: 2-by-3 and 3-by-2, and a 1-by-2 array. *)
Definition wide_A : ndarray := array_of 2 3 [[1; 0; 0]; [0; 1; 0]]%Z.
Definition tall_B : ndarray := array_of 3 2 [[2; 3]; [4; 5]; [0; 0]]%Z.
Definition flat_C : ndarray := array_of 1 2 [[2; 3]]%Z.
Definition long_C : ndarray := array_of 3 2 [[2; 3]; [4; 5]; [6; 7]]%Z.

(** A generator whose words are given by a list, then zero. *)
Definition state_of (ws : list N) : RandomState :=
  mk_RandomState (fun i => nth i ws 0%N) 0.

(** A generator state for [make_test 2]: the words of
    [A = [[1/2, 1/4], [0, 1/2]]] and [B = [[1/2, 0], [1/4, 1/2]]], the cell
    [(1, 0)], and a last word on which [np.random.random()] returns [0.0]. *)
Definition unlucky_state : RandomState :=
  state_of [2 ^ 52; 2 ^ 51; 0; 2 ^ 52;
            2 ^ 52; 0; 2 ^ 51; 2 ^ 52;
            1; 0;
            0]%N.

(** The instance [make_test 2] builds from these words. *)
Definition frac (a : Z) (b : positive) : Qc := Q2Qc (a # b).

Definition unlucky_A : ndarray :=
  mk_ndarray 2 2 [[frac 1 2; frac 1 4]; [frac 0 1; frac 1 2]].
Definition unlucky_B : ndarray :=
  mk_ndarray 2 2 [[frac 1 2; frac 0 1]; [frac 1 4; frac 1 2]].
Definition unlucky_C : ndarray :=
  mk_ndarray 2 2 [[frac 5 16; frac 1 8]; [frac 1 8; frac 1 4]].

(** ** The verifier in binary64 arithmetic *)

(** NumPy computes [@] and [-] on [float64] arrays in IEEE binary64, each
    product and each sum rounded to nearest.  The module repeats the
    verifier on such entries; the shape checks, the generator and the loop
    are those of the first model.  A dot product is accumulated from left
    to right, which NumPy does not promise; the runs evaluated in this
    development have exact products and at most one inexact addition in
    every sum, so that every order of summation, and a fused multiply-add,
    give the same values. *)
Module Float64.

Local Open Scope float_scope.

(** [x != 0]: false on both zeros, true on a NaN. *)
Definition nonzero (x : float) : bool := negb (PrimFloat.eqb x 0).

Record ndarray : Type := mk_ndarray
  { shape0 : nat;
    shape1 : nat;
    rows : list (list float) }.

Definition wf_ndarrayb (M : ndarray) : bool :=
  Nat.eqb (length (rows M)) (shape0 M) &&
  forallb (fun r => Nat.eqb (length r) (shape1 M)) (rows M).

Definition dot (u v : list float) : float :=
  fold_left (fun acc p => acc + fst p * snd p) (combine u v) 0.

Definition matvec (M : list (list float)) (v : list float) : list float :=
  map (fun r => dot r v) M.

Fixpoint vsub (u v : list float) : list float :=
  match u, v with
  | a :: u', b :: v' => (a - b) :: vsub u' v'
  | _, _ => []
  end.

(** [M @ v]. *)
Definition matvec_np (M : ndarray) (v : list float) : result (list float) :=
  if Nat.eqb (shape1 M) (length v) then Ok (matvec (rows M) v)
  else Raise ValueError.

(** [u - v], with broadcasting. *)
Definition sub_np (u v : list float) : result (list float) :=
  if Nat.eqb (length u) (length v) then Ok (vsub u v)
  else match u, v with
       | [a], _ => Ok (map (fun b => a - b) v)
       | _, [b] => Ok (map (fun a => a - b) u)
       | _, _ => Raise ValueError
       end.

(** [res.any()]. *)
Definition any_np (v : list float) : bool := existsb nonzero v.

(** The integers of [X] are converted to [float64] when they meet a float
    array in [@]. *)
Definition float_of_Z (z : Z) : float := of_uint63 (Uint63.of_Z z).

(** [A @ (B @ X) - (C @ X)]. *)
Definition residual_np (A B C : ndarray) (X : list float)
  : result (list float) :=
  match matvec_np B X with
  | Ok bx =>
      match matvec_np A bx with
      | Ok abx =>
          match matvec_np C X with
          | Ok cx => sub_np abx cx
          | Raise e => Raise e
          end
      | Raise e => Raise e
      end
  | Raise e => Raise e
  end.

Fixpoint freivalds_loop (A B C : ndarray) (n : nat) (iters : nat)
  : Rand bool :=
  match iters with
  | O => ret true
  | S iters' =>
      X <- randint 0 2 n ;;
      res <- lift (residual_np A B C (map float_of_Z X)) ;;
      if any_np res then ret false
      else freivalds_loop A B C n iters'
  end.

(** [is_correct_mult(A, B, C, k)] on [float64] arrays. *)
Definition is_correct_mult (A B C : ndarray) (k : Z) : Rand bool :=
  let n := shape0 A in
  freivalds_loop A B C n (Z.to_nat k).

(** The entry is a number: neither an infinity nor a NaN. *)
Definition is_finite (x : float) : bool :=
  match Prim2SF x with
  | S754_zero _ | S754_finite _ _ _ => true
  | _ => false
  end.

Definition all_finite (M : ndarray) : bool :=
  forallb (forallb is_finite) (rows M).

(** The rational number a finite entry stands for. *)
Definition exact (x : float) : Qc :=
  match Prim2SF x with
  | S754_finite s m e =>
      Q2Qc (inject_Z (if s then Z.neg m else Z.pos m) * Qpower (2 # 1) e)
  | _ => Q2Qc 0
  end.

End Float64.

(** The array of exact rationals a [float64] array stands for. *)
Definition exact_array (M : Float64.ndarray) : ndarray :=
  mk_ndarray (Float64.shape0 M) (Float64.shape1 M)
    (map (map Float64.exact) (Float64.rows M)).




(** *** Sample [float64] inputs *)

(** A product that is exact, [C = A @ B], on which rounding leaves a
    residual: with [X = [1, 1]], [B @ X] rounds [0.5 + 2^-54] to [0.5] and
    [A @ (B @ X)] rounds [0.25 + 2^-55] to [0.25], while [C @ X] is
    [0.25 + 2^-54] exactly. *)
Definition rounded_A : Float64.ndarray :=
  Float64.mk_ndarray 2 2 [[0.5; 0.5]; [0; 0]]%float.
Definition rounded_B : Float64.ndarray :=
  Float64.mk_ndarray 2 2 [[0.5; 0x1p-54]; [0; 0x1p-54]]%float.
Definition rounded_C : Float64.ndarray :=
  Float64.mk_ndarray 2 2 [[0.25; 0x1p-54]; [0; 0]]%float.

(** A wrong product that rounding hides: [A] is the identity, [C] differs
    from [A @ B = B] in cell (0, 1), and both [1 + 2^-60] and [1 + 2^-61]
    round to [1]. *)
Definition absorbed_A : Float64.ndarray :=
  Float64.mk_ndarray 2 2 [[1; 0]; [0; 1]]%float.
Definition absorbed_B : Float64.ndarray :=
  Float64.mk_ndarray 2 2 [[1; 0x1p-60]; [0; 0]]%float.
Definition absorbed_C : Float64.ndarray :=
  Float64.mk_ndarray 2 2 [[1; 0x1p-61]; [0; 0]]%float.


(** ** The runs of the experiment *)

(** One trial as the loop body of the cell performs it, from the generator
    state [st] to the state [st']: one call of [make_test] and two calls of
    [is_correct_mult] on the instance it returned, with [k = 1] and then
    with [k = 2], each starting in the state the previous call left. *)
Inductive trial_run (n : Z)
  : RandomState -> bool * bool -> RandomState -> Prop :=
| trial_run_intro (st s1 s2 st' : RandomState) (A B C : ndarray)
    (v1 v2 : bool) :
    make_test n st = (Ok (A, B, C), s1) ->
    is_correct_mult A B C 1 s1 = (Ok v1, s2) ->
    is_correct_mult A B C 2 s2 = (Ok v2, st') ->
    trial_run n st (v1, v2) st'.

(** Consecutive trials on one dimension, with their verdicts in order. *)
Inductive trials_run (n : Z)
  : RandomState -> list (bool * bool) -> RandomState -> Prop :=
| trials_run_nil (st : RandomState) : trials_run n st [] st
| trials_run_cons (st s1 st' : RandomState) (v : bool * bool)
    (vs : list (bool * bool)) :
    trial_run n st v s1 -> trials_run n s1 vs st' ->
    trials_run n st (v :: vs) st'.

(** [trials] trials on each of the [count] dimensions [n], [n + 1], ...,
    one dimension after the other. *)
Inductive sweep_run (trials : nat)
  : Z -> nat -> RandomState -> list (list (bool * bool)) -> RandomState
    -> Prop :=
| sweep_run_done (n : Z) (st : RandomState) : sweep_run trials n 0 st [] st
| sweep_run_next (n : Z) (count : nat) (st s1 st' : RandomState)
    (log : list (bool * bool)) (logs : list (list (bool * bool))) :
    trials_run n st log s1 -> length log = trials ->
    sweep_run trials (n + 1) count s1 logs st' ->
    sweep_run trials n (S count) st (log :: logs) st'.

(** * Properties *)

(** ** Entries *)

Lemma Qc_nonzero_true (x : Qc) : Qc_nonzero x = true <-> x <> 0.
Proof.
  unfold Qc_nonzero. rewrite negb_true_iff. split.
  - intros H E. subst x. discriminate H.
  - intros H. destruct (Qeq_bool (this x) (this 0)) eqn:E; [|reflexivity].
    exfalso. apply H. apply Qc_is_canon. apply Qeq_bool_iff. exact E.
Qed.

Lemma Qc_nonzero_false (x : Qc) : Qc_nonzero x = false <-> x = 0.
Proof.
  split.
  - intros H. destruct (Qc_eq_dec x 0) as [E|E]; [exact E|].
    apply Qc_nonzero_true in E. congruence.
  - intros ->. reflexivity.
Qed.

Lemma Qc_eqb_eq (x y : Qc) : Qc_eqb x y = true <-> x = y.
Proof.
  unfold Qc_eqb. split.
  - intros H. apply Qc_is_canon. apply Qeq_bool_iff. exact H.
  - intros ->. apply Qeq_bool_iff. reflexivity.
Qed.

Lemma Qc_eqb_neq (x y : Qc) : Qc_eqb x y = false <-> x <> y.
Proof.
  rewrite <- Qc_eqb_eq. destruct (Qc_eqb x y); split; congruence.
Qed.

(** ** Threading the generator *)

Lemma advance_0 (st : RandomState) : advance st 0 = st.
Proof. destruct st as [t p]. unfold advance. simpl. now rewrite Nat.add_0_r. Qed.

Lemma advance_advance (st : RandomState) (a b : nat) :
  advance (advance st a) b = advance st (a + b).
Proof. unfold advance. simpl. now rewrite Nat.add_assoc. Qed.

Lemma words_length (st : RandomState) (n : nat) : length (words st n) = n.
Proof. unfold words. now rewrite length_map, length_seq. Qed.

Lemma words_S (st : RandomState) (n : nat) :
  words st (S n) = tape st (pos st) :: words (advance st 1) n.
Proof.
  unfold words. simpl. rewrite Nat.add_0_r. f_equal.
  rewrite <- seq_shift, map_map. apply map_ext. intros i.
  f_equal. lia.
Qed.

Lemma next_words_eq (n : nat) (st : RandomState) :
  next_words n st = (Ok (words st n), advance st n).
Proof.
  revert st. induction n as [|n IH]; intros st.
  - simpl. unfold ret. now rewrite advance_0.
  - simpl. unfold bind, next_word. rewrite IH. unfold ret.
    now rewrite words_S, advance_advance.
Qed.

Lemma randint_eq (low high : Z) (n : nat) (st : RandomState) :
  (low < high)%Z ->
  randint low high n st =
    (Ok (map (int_of_word low high) (words st n)), advance st n).
Proof.
  intros H. unfold randint.
  destruct (Z.leb_spec high low) as [L|L]; [lia|].
  unfold bind. now rewrite next_words_eq.
Qed.

Lemma drawn_X_length (st : RandomState) (n i : nat) :
  length (drawn_X st n i) = n.
Proof. unfold drawn_X. now rewrite !length_map, words_length. Qed.

(** The vectors drawn are vectors of [{0,1}^n]. *)
Lemma drawn_X_binary (st : RandomState) (n i : nat) :
  Forall (fun x => x = 0 \/ x = 1) (drawn_X st n i).
Proof.
  unfold drawn_X. rewrite map_map. apply Forall_forall. intros x Hx.
  apply in_map_iff in Hx. destruct Hx as [w [<- _]].
  unfold int_of_word. rewrite Z.sub_0_r, Z.add_0_l.
  assert (H : (0 <= Z.of_N w mod 2 < 2)%Z) by (apply Z.mod_pos_bound; lia).
  assert (E : (Z.of_N w mod 2 = 0 \/ Z.of_N w mod 2 = 1)%Z) by lia.
  destruct E as [-> | ->]; [left | right]; reflexivity.
Qed.

(** ** Linear algebra on rows *)

Lemma dot_nil_r (u : vector) : dot u [] = 0.
Proof. destruct u; reflexivity. Qed.

Lemma matvec_length (M : list vector) (v : vector) :
  length (matvec M v) = length M.
Proof. unfold matvec. apply length_map. Qed.

Lemma vsub_length (u v : vector) :
  length u = length v -> length (vsub u v) = length u.
Proof.
  revert v. induction u as [|a u IH]; intros [|b v] H; simpl in *;
    try discriminate; auto.
Qed.

Section DotOfTabulated.

Variables (T : Type) (X : vector).

Lemma dot_map_zero (l : list T) : dot (map (fun _ => 0) l) X = 0.
Proof.
  revert X. induction l as [|j l IH]; intros [|x Y]; simpl; auto.
  rewrite IH. ring.
Qed.

Lemma dot_map_add (f g : T -> Qc) (l : list T) :
  dot (map (fun j => f j + g j) l) X = dot (map f l) X + dot (map g l) X.
Proof.
  revert X. induction l as [|j l IH]; intros [|x Y]; simpl;
    try ring.
  rewrite IH. ring.
Qed.

Lemma dot_map_scale (a : Qc) (f : T -> Qc) (l : list T) :
  dot (map (fun j => a * f j) l) X = a * dot (map f l) X.
Proof.
  revert X. induction l as [|j l IH]; intros [|x Y]; simpl;
    try ring.
  rewrite IH. ring.
Qed.

End DotOfTabulated.

Lemma tabulate_nth (T : Type) (d : T) (b : list T) (s : nat) :
  map (fun j => nth (j - s) b d) (seq s (length b)) = b.
Proof.
  revert s. induction b as [|x b IH]; intros s; simpl; [reflexivity|].
  rewrite Nat.sub_diag. f_equal.
  rewrite <- (IH (S s)) at 2. apply map_ext_in. intros j Hj.
  apply in_seq in Hj. replace (j - s)%nat with (S (j - S s)) by lia.
  reflexivity.
Qed.

Lemma tabulate_list (T : Type) (d : T) (b : list T) :
  map (fun j => nth j b d) (seq 0 (length b)) = b.
Proof.
  transitivity (map (fun j => nth (j - 0) b d) (seq 0 (length b))).
  - apply map_ext. intros j. now rewrite Nat.sub_0_r.
  - apply tabulate_nth.
Qed.

(** Row [r] of [A @ B] applied to [X] is [r] applied to [B @ X]. *)
Lemma dot_matmul_row (p : nat) (B : list vector) (X r : vector) :
  Forall (fun b => length b = p) B ->
  dot (map (fun j => dot r (col j B)) (seq 0 p)) X = dot r (matvec B X).
Proof.
  intros HB. revert r. induction HB as [|b B Hb HB IH]; intros r.
  - simpl. rewrite dot_nil_r.
    apply dot_map_zero.
  - destruct r as [|a r].
    + simpl. apply dot_map_zero.
    + simpl.
      rewrite (dot_map_add X (fun j => a * nth j b 0)
                 (fun j => dot r (col j B))).
      rewrite dot_map_scale, IH. subst p. now rewrite tabulate_list.
Qed.

(** [(A @ B) @ X = A @ (B @ X)]. *)
Lemma matvec_matmul (A B : list vector) (p : nat) (X : vector) :
  Forall (fun b => length b = p) B ->
  matvec (matmul_rows A p B) X = matvec A (matvec B X).
Proof.
  intros HB. unfold matvec at 1 3, matmul_rows. rewrite map_map.
  apply map_ext. intros r. now apply dot_matmul_row.
Qed.

Lemma dot_vsub (u v X : vector) :
  length u = length v -> dot (vsub u v) X = dot u X - dot v X.
Proof.
  revert v X. induction u as [|a u IH]; intros [|b v] [|x X] H;
    simpl in *; try discriminate; try ring.
  rewrite IH by congruence. ring.
Qed.

(** [(P - C) @ X = P @ X - C @ X] for arrays of one shape. *)
Lemma matvec_msub (P C : list vector) (X : vector) :
  Forall2 (fun u v => length u = length v) P C ->
  matvec (msub_rows P C) X = vsub (matvec P X) (matvec C X).
Proof.
  induction 1 as [|u v P C Huv _ IH]; simpl; [reflexivity|].
  rewrite IH. f_equal. now apply dot_vsub.
Qed.

Lemma matmul_rows_shape (A : list vector) (p : nat) (B : list vector) :
  length (matmul_rows A p B) = length A /\
  Forall (fun r => length r = p) (matmul_rows A p B).
Proof.
  unfold matmul_rows. split; [apply length_map|].
  apply Forall_forall. intros r Hr. apply in_map_iff in Hr.
  destruct Hr as [a [<- _]]. now rewrite length_map, length_seq.
Qed.

Lemma same_shape_Forall2 (p : nat) (P C : list vector) :
  length P = length C ->
  Forall (fun r => length r = p) P ->
  Forall (fun r => length r = p) C ->
  Forall2 (fun u v => length u = length v) P C.
Proof.
  intros HL HP. revert C HL.
  induction HP as [|u P Hu HP IH]; intros [|v C] HL HC; simpl in *;
    try discriminate; constructor.
  - inversion HC; congruence.
  - apply IH; [congruence | now inversion HC].
Qed.

(** ** The residual test *)

Lemma any_np_true (v : vector) :
  any_np v = true <-> Exists (fun x => x <> 0) v.
Proof.
  unfold any_np. rewrite existsb_exists, Exists_exists.
  split; intros [x [Hin Hx]]; exists x; split; auto;
    now apply Qc_nonzero_true.
Qed.

Lemma any_np_false (v : vector) :
  any_np v = false <-> Forall (fun x => x = 0) v.
Proof.
  unfold any_np. rewrite Forall_forall. split.
  - intros H x Hin. apply Qc_nonzero_false.
    destruct (Qc_nonzero x) eqn:E; [|reflexivity].
    assert (existsb Qc_nonzero v = true) by (apply existsb_exists; eauto).
    congruence.
  - intros H. destruct (existsb Qc_nonzero v) eqn:E; [|reflexivity].
    apply existsb_exists in E. destruct E as [x [Hin Hx]].
    apply Qc_nonzero_true in Hx. now specialize (H x Hin).
Qed.

Lemma any_np_vsub_self (v : vector) : any_np (vsub v v) = false.
Proof.
  induction v as [|a v IH]; simpl; [reflexivity|].
  rewrite IH, orb_false_r. apply Qc_nonzero_false. ring.
Qed.

(** ** One pass of the loop body *)

Lemma sub_np_equal_length (u v : vector) :
  length u = length v -> sub_np u v = Ok (vsub u v).
Proof. intros H. unfold sub_np. now rewrite H, Nat.eqb_refl. Qed.

Lemma sub_np_raises (u v : vector) :
  length u <> length v -> length u <> 1%nat -> length v <> 1%nat ->
  sub_np u v = Raise ValueError.
Proof.
  intros H Hu Hv. unfold sub_np.
  apply Nat.eqb_neq in H. rewrite H.
  destruct u as [|a [|a' u]]; destruct v as [|b [|b' v]]; simpl in *;
    try reflexivity; congruence.
Qed.

Lemma sub_np_broadcasts (u v : vector) :
  length u = 1%nat \/ length v = 1%nat -> exists w, sub_np u v = Ok w.
Proof.
  intros H. unfold sub_np.
  destruct (Nat.eqb (length u) (length v)); [eauto|].
  destruct u as [|a [|a' u]]; destruct v as [|b [|b' v]]; simpl in *;
    eauto; destruct H; discriminate.
Qed.

Section LoopBody.

Variables A B C : ndarray.
Hypothesis wfA : wf_ndarray A.
Hypothesis wfB : wf_ndarray B.
Hypothesis wfC : wf_ndarray C.

Lemma residual_np_compatible (X : vector) :
  length X = shape0 A ->
  shapes_compatible A B C = true ->
  exists res, residual_np A B C X = Ok res.
Proof.
  intros HX H. unfold shapes_compatible in H.
  apply andb_prop in H. destruct H as [H H4].
  apply andb_prop in H. destruct H as [H H3].
  apply andb_prop in H. destruct H as [H1 H2].
  apply Nat.eqb_eq in H1, H2, H3.
  unfold residual_np, matvec_np.
  rewrite HX, H1, Nat.eqb_refl, matvec_length, (proj1 wfB), H2,
    Nat.eqb_refl, H3, Nat.eqb_refl.
  apply orb_prop in H4. destruct H4 as [H4|H4].
  - apply orb_prop in H4. destruct H4 as [H4|H4]; apply Nat.eqb_eq in H4.
    + rewrite sub_np_equal_length; eauto.
      now rewrite !matvec_length, (proj1 wfA), (proj1 wfC).
    + apply sub_np_broadcasts. left.
      now rewrite matvec_length, (proj1 wfA).
  - apply Nat.eqb_eq in H4. apply sub_np_broadcasts. right.
    now rewrite matvec_length, (proj1 wfC).
Qed.

Lemma residual_np_incompatible (X : vector) :
  length X = shape0 A ->
  shapes_compatible A B C = false ->
  residual_np A B C X = Raise ValueError.
Proof.
  intros HX H. unfold shapes_compatible in H.
  unfold residual_np, matvec_np. rewrite HX.
  destruct (Nat.eqb (shape1 B) (shape0 A)) eqn:H1; [|reflexivity].
  rewrite matvec_length, (proj1 wfB).
  destruct (Nat.eqb (shape1 A) (shape0 B)) eqn:H2; [|reflexivity].
  destruct (Nat.eqb (shape1 C) (shape0 A)) eqn:H3; [|reflexivity].
  simpl in H. apply orb_false_elim in H. destruct H as [H H6].
  apply orb_false_elim in H. destruct H as [H4 H5].
  apply Nat.eqb_neq in H4, H5, H6.
  apply sub_np_raises;
    rewrite ?matvec_length, ?(proj1 wfA), ?(proj1 wfC); assumption.
Qed.

Lemma residual_np_square (n : nat) (X : vector) :
  shape0 A = n -> shape1 A = n ->
  shape0 B = n -> shape1 B = n ->
  shape0 C = n -> shape1 C = n ->
  length X = n ->
  residual_np A B C X = Ok (residual A B C X).
Proof.
  intros A0 A1 B0 B1 C0 C1 HX.
  unfold residual_np, matvec_np.
  rewrite HX, B1, Nat.eqb_refl, matvec_length, (proj1 wfB), B0, A1,
    Nat.eqb_refl, C1, Nat.eqb_refl.
  apply sub_np_equal_length.
  rewrite !matvec_length, (proj1 wfA), (proj1 wfC). congruence.
Qed.

End LoopBody.

(** ** The loop *)

Lemma freivalds_loop_step (A B C : ndarray) (n iters : nat)
  (st : RandomState) :
  freivalds_loop A B C n (S iters) st =
    match residual_np A B C (drawn_X st n 0) with
    | Ok res =>
        if any_np res then (Ok false, advance st n)
        else freivalds_loop A B C n iters (advance st n)
    | Raise e => (Raise e, advance st n)
    end.
Proof.
  unfold drawn_X. simpl. rewrite advance_0.
  unfold bind. rewrite randint_eq by lia.
  unfold lift. destruct (residual_np _ _ _ _) as [res|e]; [|reflexivity].
  destruct (any_np res); reflexivity.
Qed.

Lemma drawn_X_advance (st : RandomState) (n s : nat) :
  drawn_X (advance st (s * n)) n 0 = drawn_X st n s.
Proof. unfold drawn_X. simpl. now rewrite advance_0. Qed.

Section SquareInputs.

Variables (n : nat) (A B C : ndarray).
Hypothesis sqA : square n A.
Hypothesis sqB : square n B.
Hypothesis sqC : square n C.

(** The loop, at any point of a run started in [st]: it stops at the
    first repetition with a nonzero residual, and otherwise runs all its
    iterations. *)
Lemma freivalds_loop_square (st : RandomState) (iters s : nat) :
  freivalds_loop A B C n iters (advance st (s * n)) =
    match first_nonzero (fun i => residual A B C (drawn_X st n i)) s iters with
    | Some i => (Ok false, advance st (S i * n))
    | None => (Ok true, advance st ((s + iters) * n))
    end.
Proof.
  destruct sqA as [wA [A0 A1]], sqB as [wB [B0 B1]], sqC as [wC [C0 C1]].
  revert s. induction iters as [|it IH]; intros s.
  - simpl. unfold ret. now rewrite Nat.add_0_r.
  - rewrite freivalds_loop_step, drawn_X_advance.
    rewrite (@residual_np_square A B C wA wB wC n (drawn_X st n s)
               A0 A1 B0 B1 C0 C1 (drawn_X_length st n s)).
    simpl first_nonzero.
    rewrite advance_advance.
    replace (s * n + n)%nat with (S s * n)%nat by lia.
    destruct (any_np _); [reflexivity|].
    rewrite IH. replace (S s + it)%nat with (s + S it)%nat by lia.
    reflexivity.
Qed.

Lemma is_correct_mult_square (k : Z) (st : RandomState) :
  is_correct_mult A B C k st =
    match first_nonzero (fun i => residual A B C (drawn_X st n i))
            0 (Z.to_nat k) with
    | Some i => (Ok false, advance st (S i * n))
    | None => (Ok true, advance st (Z.to_nat k * n))
    end.
Proof.
  unfold is_correct_mult.
  replace (shape0 A) with n by (symmetry; apply sqA).
  rewrite <- (advance_0 st) at 1.
  change 0%nat with (0 * n)%nat at 1.
  now rewrite freivalds_loop_square.
Qed.

End SquareInputs.

Lemma first_nonzero_Some (r : nat -> vector) (iters s i : nat) :
  first_nonzero r s iters = Some i <->
  (s <= i < s + iters)%nat /\ any_np (r i) = true /\
  (forall j, (s <= j < i)%nat -> any_np (r j) = false).
Proof.
  revert s. induction iters as [|it IH]; intros s; simpl.
  - split; [discriminate | lia].
  - destruct (any_np (r s)) eqn:E.
    + split.
      * intros [= <-]. repeat split; try lia; auto.
      * intros [Hi [Hr Hj]].
        destruct (Nat.eq_dec s i) as [->|Hne]; [reflexivity|].
        rewrite (Hj s) in E by lia. discriminate.
    + rewrite IH. split.
      * intros [Hi [Hr Hj]]. repeat split; try lia; auto.
        intros j Hj'. destruct (Nat.eq_dec j s) as [->|Hne]; [exact E|].
        apply Hj. lia.
      * intros [Hi [Hr Hj]].
        assert (s <> i) by (intros ->; congruence).
        repeat split; try lia; auto. intros j Hj'. apply Hj. lia.
Qed.

Lemma first_nonzero_None (r : nat -> vector) (iters s : nat) :
  first_nonzero r s iters = None <->
  (forall j, (s <= j < s + iters)%nat -> any_np (r j) = false).
Proof.
  revert s. induction iters as [|it IH]; intros s; simpl.
  - split; [intros _ j Hj; lia | reflexivity].
  - destruct (any_np (r s)) eqn:E.
    + split; [discriminate|]. intros H. rewrite (H s) in E by lia.
      discriminate.
    + rewrite IH. split; intros H j Hj.
      * destruct (Nat.eq_dec j s) as [->|Hne]; [exact E|]. apply H. lia.
      * apply H. lia.
Qed.

(** ** Deciding shapes and equality of arrays *)

Lemma wf_ndarrayb_correct (M : ndarray) :
  wf_ndarrayb M = true -> wf_ndarray M.
Proof.
  unfold wf_ndarrayb, wf_ndarray. intros H.
  apply andb_prop in H. destruct H as [H1 H2]. split.
  - now apply Nat.eqb_eq.
  - apply Forall_forall. intros r Hr.
    rewrite forallb_forall in H2. apply Nat.eqb_eq. now apply H2.
Qed.

Lemma squareb_correct (n : nat) (M : ndarray) :
  squareb n M = true -> square n M.
Proof.
  unfold squareb, square. intros H.
  apply andb_prop in H. destruct H as [H H3].
  apply andb_prop in H. destruct H as [H1 H2].
  repeat split; try (now apply Nat.eqb_eq); now apply wf_ndarrayb_correct.
Qed.

Lemma list_eqb_eq (T : Type) (eqb : T -> T -> bool) (l1 l2 : list T) :
  (forall x y, eqb x y = true -> x = y) ->
  list_eqb eqb l1 l2 = true -> l1 = l2.
Proof.
  intros Heq. revert l2.
  induction l1 as [|x l1 IH]; intros [|y l2] H; simpl in H;
    try discriminate; [reflexivity|].
  apply andb_prop in H. destruct H as [Hx Hl].
  f_equal; [now apply Heq | now apply IH].
Qed.

Lemma ndarray_eqb_eq (M N : ndarray) : ndarray_eqb M N = true -> M = N.
Proof.
  destruct M as [m0 m1 mr], N as [n0 n1 nr]. unfold ndarray_eqb. simpl.
  intros H. apply andb_prop in H. destruct H as [H H3].
  apply andb_prop in H. destruct H as [H1 H2].
  apply Nat.eqb_eq in H1, H2.
  apply list_eqb_eq in H3.
  - congruence.
  - intros u v. apply list_eqb_eq. intros x y. apply Qc_eqb_eq.
Qed.

(** ** Products of square arrays *)

Lemma matmul_np_square (n : nat) (A B : ndarray) :
  square n A -> square n B ->
  matmul_np A B =
    Ok (mk_ndarray n n (matmul_rows (rows A) n (rows B))) /\
  square n (mk_ndarray n n (matmul_rows (rows A) n (rows B))).
Proof.
  intros [wA [A0 A1]] [wB [B0 B1]]. split.
  - unfold matmul_np. now rewrite A1, B0, Nat.eqb_refl, A0, B1.
  - unfold square, wf_ndarray. simpl.
    destruct (matmul_rows_shape (rows A) n (rows B)) as [H1 H2].
    repeat split; auto. rewrite H1. destruct wA. congruence.
Qed.

(** The residual of the code against the one formed from the product. *)
Lemma residual_naive (n : nat) (A B C : ndarray) (X : vector) :
  square n A -> square n B -> square n C ->
  residual A B C X = naive_residual A B C X.
Proof.
  intros [wA [A0 A1]] [wB [B0 B1]] [wC [C0 C1]].
  unfold residual, naive_residual.
  destruct (matmul_rows_shape (rows A) (shape1 B) (rows B)) as [H1 H2].
  rewrite matvec_msub.
  - rewrite matvec_matmul; [reflexivity | apply wB].
  - apply same_shape_Forall2 with (p := n).
    + rewrite H1. destruct wA, wC. congruence.
    + rewrite <- B1. exact H2.
    + rewrite <- C1. apply wC.
Qed.

(** * The claims *)

(** C10. For square arrays [A], [B], [C] of one dimension [n] and a vector
    [X] of length [n], the loop body computes [A @ (B @ X) - C @ X] without
    raising, and over exact arithmetic this vector is
    [(A @ B) @ X - C @ X], which is [(A @ B - C) @ X]; so [res.any()] gives
    the same answer on the residual of the code and on the one formed from
    the full product. *)
Theorem residual_equivalence (n : nat) (A B C : ndarray) (X : vector) :
  square n A -> square n B -> square n C -> length X = n ->
  residual_np A B C X = Ok (residual A B C X) /\
  (exists P, matmul_np A B = Ok P /\
     residual A B C X = vsub (matvec (rows P) X) (matvec (rows C) X) /\
     residual A B C X = matvec (msub_rows (rows P) (rows C)) X) /\
  any_np (residual A B C X) = any_np (naive_residual A B C X).
Proof.
  intros sA sB sC HX.
  pose proof (@residual_naive n A B C X sA sB sC) as Hn.
  destruct (matmul_np_square sA sB) as [HP _].
  destruct sA as [wA [A0 A1]], sB as [wB [B0 B1]], sC as [wC [C0 C1]].
  split; [|split].
  - now apply residual_np_square with (n := n).
  - eexists. split; [exact HP|]. simpl. split.
    + unfold residual. rewrite matvec_matmul; [reflexivity|].
      rewrite <- B1. apply wB.
    + rewrite Hn. unfold naive_residual. now rewrite B1.
  - now rewrite Hn.
Qed.

Lemma residual_equivalence_witness :
  residual_np sample_A sample_B sample_C_wrong [1; 1] =
    Ok (residual sample_A sample_B sample_C_wrong [1; 1]) /\
  (exists P, matmul_np sample_A sample_B = Ok P /\
     residual sample_A sample_B sample_C_wrong [1; 1] =
       vsub (matvec (rows P) [1; 1]) (matvec (rows sample_C_wrong) [1; 1]) /\
     residual sample_A sample_B sample_C_wrong [1; 1] =
       matvec (msub_rows (rows P) (rows sample_C_wrong)) [1; 1]) /\
  any_np (residual sample_A sample_B sample_C_wrong [1; 1]) =
    any_np (naive_residual sample_A sample_B sample_C_wrong [1; 1]).
Proof.
  apply (@residual_equivalence 2 sample_A sample_B sample_C_wrong [1; 1]).
  - apply squareb_correct. reflexivity.
  - apply squareb_correct. reflexivity.
  - apply squareb_correct. reflexivity.
  - reflexivity.
Defined.

(** A product computed exactly passes every repetition. *)
Lemma product_accepted (n : nat) (A B C : ndarray) (k : Z)
  (st : RandomState) :
  square n A -> square n B -> matmul_np A B = Ok C ->
  is_correct_mult A B C k st = (Ok true, advance st (Z.to_nat k * n)).
Proof.
  intros sA sB HC.
  destruct (matmul_np_square sA sB) as [HP sP].
  rewrite HP in HC. injection HC as <-.
  rewrite (is_correct_mult_square sA sB sP).
  match goal with
  | |- match ?o with _ => _ end = _ =>
      assert (E : o = None); [|now rewrite E]
  end.
  apply first_nonzero_None. intros j _.
  unfold residual. simpl rows.
  rewrite matvec_matmul by (rewrite <- (proj2 (proj2 sB)); apply sB).
  apply any_np_vsub_self.
Qed.

(** Soundness in exact arithmetic.  When the entries are rationals and
    every product, sum and difference of the run is exact, and [C] is the
    product [A @ B] of two square arrays, [is_correct_mult] returns [True]
    for every repetition count and whatever vectors are drawn; hence a
    verdict [False] is never returned for a correct product.  The runs of
    the code in binary64 are in the last part of the file. *)
Theorem one_sided_soundness (n : nat) (A B C : ndarray) :
  square n A -> square n B ->
  (matmul_np A B = Ok C ->
   forall (k : Z) (st : RandomState),
     is_correct_mult A B C k st = (Ok true, advance st (Z.to_nat k * n))) /\
  (forall (k : Z) (st st' : RandomState),
     is_correct_mult A B C k st = (Ok false, st') ->
     matmul_np A B <> Ok C).
Proof.
  intros sA sB. split.
  - intros HC k st. now apply product_accepted.
  - intros k st st' Hfalse HC.
    rewrite (product_accepted k st sA sB HC) in Hfalse. discriminate.
Qed.

Lemma sample_product : matmul_np sample_A sample_B = Ok sample_C.
Proof.
  unfold matmul_np. simpl. apply f_equal. apply ndarray_eqb_eq. reflexivity.
Qed.

Lemma one_sided_soundness_witness :
  (matmul_np sample_A sample_B = Ok sample_C ->
   forall (k : Z) (st : RandomState),
     is_correct_mult sample_A sample_B sample_C k st =
       (Ok true, advance st (Z.to_nat k * 2))) /\
  (forall (k : Z) (st st' : RandomState),
     is_correct_mult sample_A sample_B sample_C k st = (Ok false, st') ->
     matmul_np sample_A sample_B <> Ok sample_C).
Proof.
  apply (@one_sided_soundness 2 sample_A sample_B sample_C).
  - apply squareb_correct. reflexivity.
  - apply squareb_correct. reflexivity.
Defined.

(** C3. Iterations and early exit.  On square arrays of dimension [n], with
    [X_i] the vector drawn by repetition [i] (from 0) of a run started in
    [st], the call never raises; it returns [False] exactly when there is a
    first repetition [i < k] whose residual has a nonzero entry, all earlier
    residuals being zero, and then exactly [i + 1] vectors have been drawn;
    it returns [True] exactly when the residuals of all [k] repetitions are
    entirely zero, and then exactly [k] vectors have been drawn. *)
Theorem iteration_semantics (n : nat) (A B C : ndarray) (k : Z)
  (st : RandomState) :
  square n A -> square n B -> square n C ->
  (exists b st', is_correct_mult A B C k st = (Ok b, st')) /\
  (forall st',
     is_correct_mult A B C k st = (Ok false, st') <->
     exists i, (i < Z.to_nat k)%nat /\
       Exists (fun x => x <> 0) (residual A B C (drawn_X st n i)) /\
       (forall j, (j < i)%nat ->
          Forall (fun x => x = 0) (residual A B C (drawn_X st n j))) /\
       st' = advance st (S i * n)) /\
  (forall st',
     is_correct_mult A B C k st = (Ok true, st') <->
     (forall i, (i < Z.to_nat k)%nat ->
        Forall (fun x => x = 0) (residual A B C (drawn_X st n i))) /\
     st' = advance st (Z.to_nat k * n)).
Proof.
  intros sA sB sC.
  rewrite (is_correct_mult_square sA sB sC).
  set (r := fun i => residual A B C (drawn_X st n i)).
  destruct (first_nonzero r 0 (Z.to_nat k)) as [i|] eqn:E.
  - apply first_nonzero_Some in E. destruct E as [Hi [Hr Hj]].
    subst r. cbv beta in *.
    split; [eauto|]. split; intros st'.
    + split.
      * intros [= <-]. exists i. repeat split; try lia.
        -- now apply any_np_true.
        -- intros j Hlt. apply any_np_false. apply Hj. lia.
      * intros [i' [Hi' [Hr' [Hj' ->]]]].
        apply any_np_true in Hr'.
        destruct (Nat.lt_trichotomy i i') as [L|[->|L]]; [| reflexivity |].
        -- specialize (Hj' i L). apply any_np_false in Hj'. congruence.
        -- rewrite (Hj i') in Hr' by lia. discriminate.
    + split; [discriminate|]. intros [Hall _].
      specialize (Hall i ltac:(lia)). apply any_np_false in Hall.
      congruence.
  - pose proof (proj1 (first_nonzero_None r _ _) E) as Hnone.
    subst r. cbv beta in *.
    split; [eauto|]. split; intros st'.
    + split; [discriminate|]. intros [i [Hi [Hr _]]].
      apply any_np_true in Hr. rewrite (Hnone i) in Hr by lia. discriminate.
    + split.
      * intros [= <-]. split; [|reflexivity]. intros i Hi.
        apply any_np_false. apply Hnone. lia.
      * intros [_ ->]. reflexivity.
Qed.

Lemma iteration_semantics_witness :
  is_correct_mult sample_A sample_B sample_C_wrong 3
    (state_of [1; 0; 0; 1; 1; 1]%N) =
  (Ok false, advance (state_of [1; 0; 0; 1; 1; 1]%N) 4).
Proof.
  apply (@iteration_semantics 2 sample_A sample_B sample_C_wrong 3
           (state_of [1; 0; 0; 1; 1; 1]%N)).
  - apply squareb_correct. reflexivity.
  - apply squareb_correct. reflexivity.
  - apply squareb_correct. reflexivity.
  - exists 1%nat. repeat split.
    + simpl. lia.
    + apply any_np_true. reflexivity.
    + intros j Hj. assert (j = 0)%nat as -> by lia.
      apply any_np_false. reflexivity.
Defined.

(** C8. On 0-by-0 arrays and for every repetition count [k >= 1],
    [is_correct_mult] returns [True]: every residual is the empty vector,
    and no word is consumed from the generator. *)
Theorem empty_matrix_accepts (A B C : ndarray) (k : Z) (st : RandomState) :
  square 0 A -> square 0 B -> square 0 C -> (1 <= k)%Z ->
  is_correct_mult A B C k st = (Ok true, st) /\
  (forall X, length X = 0%nat -> residual_np A B C X = Ok []).
Proof.
  intros sA sB sC Hk.
  assert (Hres : forall X, residual A B C X = []).
  { intros X. unfold residual, matvec.
    destruct sA as [[HA _] [A0 _]]. rewrite A0 in HA.
    destruct (rows A); [reflexivity | discriminate]. }
  split.
  - rewrite (is_correct_mult_square sA sB sC).
    match goal with
    | |- match ?o with _ => _ end = _ =>
        assert (E : o = None)
    end.
    { apply first_nonzero_None. intros j _. now rewrite Hres. }
    rewrite E, Nat.mul_0_r. now rewrite advance_0.
  - intros X HX. rewrite <- (Hres X).
    destruct sA as [wA [A0 A1]], sB as [wB [B0 B1]], sC as [wC [C0 C1]].
    now apply residual_np_square with (n := 0%nat).
Qed.

Lemma empty_matrix_accepts_witness :
  is_correct_mult empty_array empty_array empty_array 5 (state_of []) =
    (Ok true, state_of []) /\
  (forall X, length X = 0%nat ->
     residual_np empty_array empty_array empty_array X = Ok []).
Proof.
  apply (@empty_matrix_accepts empty_array empty_array empty_array 5
           (state_of [])).
  - apply squareb_correct. reflexivity.
  - apply squareb_correct. reflexivity.
  - apply squareb_correct. reflexivity.
  - lia.
Defined.

(** ** Repetition counts below one *)

(** C6, amended.  For a repetition count [k < 1] the loop body is never
    entered: [is_correct_mult] returns [True] whatever the arrays are,
    draws nothing and raises nothing. *)
Theorem nonpositive_count_accepts (A B C : ndarray) (k : Z)
  (st : RandomState) :
  (k < 1)%Z -> is_correct_mult A B C k st = (Ok true, st).
Proof.
  intros Hk. unfold is_correct_mult.
  replace (Z.to_nat k) with 0%nat by lia. reflexivity.
Qed.

Lemma nonpositive_count_accepts_witness :
  is_correct_mult sample_A sample_B sample_C_wrong (-3) (state_of [1; 1]%N) =
    (Ok true, state_of [1; 1]%N).
Proof.
  apply (@nonpositive_count_accepts sample_A sample_B sample_C_wrong (-3)
           (state_of [1; 1]%N)).
  lia.
Defined.

(** C6 as stated fails: with [k = 0] on 2-by-2 arrays the call returns the
    verdict [True] instead of raising. *)
Lemma invalid_count_not_signalled :
  ~ (forall (n : nat) (A B C : ndarray) (k : Z) (st : RandomState),
       square n A -> square n B -> square n C -> (k < 1)%Z ->
       exists e st', is_correct_mult A B C k st = (Raise e, st')).
Proof.
  intros H.
  destruct (H 2%nat sample_A sample_B sample_C_wrong 0%Z (state_of []))
    as [e [st' E]]; try (apply squareb_correct; reflexivity); try lia.
  discriminate E.
Qed.

(** ** Shapes *)

Section AnyShapes.

Variables A B C : ndarray.
Hypothesis wfA : wf_ndarray A.
Hypothesis wfB : wf_ndarray B.
Hypothesis wfC : wf_ndarray C.

Lemma freivalds_loop_compatible (iters : nat) (st : RandomState) :
  shapes_compatible A B C = true ->
  exists b st', freivalds_loop A B C (shape0 A) iters st = (Ok b, st').
Proof.
  intros Hs. revert st. induction iters as [|it IH]; intros st.
  - simpl. unfold ret. eauto.
  - rewrite freivalds_loop_step.
    destruct (@residual_np_compatible A B C wfA wfB wfC
                (drawn_X st (shape0 A) 0) (drawn_X_length _ _ _) Hs)
      as [res ->].
    destruct (any_np res); eauto.
Qed.

Lemma freivalds_loop_incompatible (iters : nat) (st : RandomState) :
  shapes_compatible A B C = false ->
  freivalds_loop A B C (shape0 A) (S iters) st =
    (Raise ValueError, advance st (shape0 A)).
Proof.
  intros Hs. rewrite freivalds_loop_step.
  now rewrite (@residual_np_incompatible A B C wfA wfB wfC
                 (drawn_X st (shape0 A) 0) (drawn_X_length _ _ _) Hs).
Qed.

End AnyShapes.

Lemma square_shapes_compatible (n : nat) (A B C : ndarray) :
  square n A -> square n B -> square n C ->
  shapes_compatible A B C = true.
Proof.
  intros [_ [A0 A1]] [_ [B0 B1]] [_ [C0 C1]]. unfold shapes_compatible.
  now rewrite A0, A1, B0, B1, C0, C1, !Nat.eqb_refl.
Qed.

(** C7, amended.  [is_correct_mult] does not check the shapes of its
    arguments: a mismatch surfaces only as the [ValueError] NumPy raises
    inside the first repetition, after [X] has been drawn, when one of the
    three products is undefined or the two sides of the subtraction do not
    broadcast.  With [k < 1] nothing is raised; shapes that are compatible
    without being a common square dimension yield a verdict; square arrays
    of one dimension are always compatible. *)
Theorem dimension_mismatch_behaviour (A B C : ndarray) (k : Z)
  (st : RandomState) :
  wf_ndarray A -> wf_ndarray B -> wf_ndarray C ->
  ((1 <= k)%Z -> shapes_compatible A B C = false ->
   is_correct_mult A B C k st = (Raise ValueError, advance st (shape0 A))) /\
  (shapes_compatible A B C = true ->
   exists b st', is_correct_mult A B C k st = (Ok b, st')) /\
  ((k < 1)%Z -> is_correct_mult A B C k st = (Ok true, st)) /\
  (forall n, square n A -> square n B -> square n C ->
     shapes_compatible A B C = true).
Proof.
  intros wA wB wC. repeat split.
  - intros Hk Hs. unfold is_correct_mult.
    destruct (Z.to_nat k) as [|it] eqn:E; [lia|].
    now apply freivalds_loop_incompatible.
  - intros Hs. unfold is_correct_mult.
    now apply freivalds_loop_compatible.
  - intros Hk. unfold is_correct_mult.
    replace (Z.to_nat k) with 0%nat by lia. reflexivity.
  - intros n. apply square_shapes_compatible.
Qed.

Lemma dimension_mismatch_behaviour_witness :
  is_correct_mult sample_A sample_B long_C 1 (state_of [1; 1]%N) =
    (Raise ValueError, advance (state_of [1; 1]%N) 2).
Proof.
  apply (@dimension_mismatch_behaviour sample_A sample_B long_C 1
           (state_of [1; 1]%N)).
  - apply wf_ndarrayb_correct. reflexivity.
  - apply wf_ndarrayb_correct. reflexivity.
  - apply wf_ndarrayb_correct. reflexivity.
  - lia.
  - reflexivity.
Defined.

(** C7 as stated fails: a 2-by-3 [A], a 3-by-2 [B] and a 1-by-2 [C] share
    no square dimension, and the call returns a verdict. *)
Lemma dimension_mismatch_not_signalled :
  wf_ndarray wide_A /\ wf_ndarray tall_B /\ wf_ndarray flat_C /\
  ~ (exists n, square n wide_A /\ square n tall_B /\ square n flat_C) /\
  is_correct_mult wide_A tall_B flat_C 1 (state_of [1; 1]%N) =
    (Ok false, advance (state_of [1; 1]%N) 2).
Proof.
  split; [apply wf_ndarrayb_correct; reflexivity|].
  split; [apply wf_ndarrayb_correct; reflexivity|].
  split; [apply wf_ndarrayb_correct; reflexivity|].
  split.
  - intros [n [[_ [H0 H1]] _]]. simpl in H0, H1. congruence.
  - reflexivity.
Qed.

(** ** The comparison with zero *)





(** ** Counting the vectors of [{0,1}^n] *)

Lemma all_bits_length (n : nat) : length (all_bits n) = (2 ^ n)%nat.
Proof.
  induction n as [|n IH]; [reflexivity|].
  cbn [all_bits]. rewrite length_app, !length_map, IH, Nat.pow_succ_r'. lia.
Qed.

Lemma all_bits_In (n : nat) (x : list bool) :
  In x (all_bits n) <-> length x = n.
Proof.
  revert x. induction n as [|n IH]; intros x.
  - simpl. split.
    + intros [<-|[]]. reflexivity.
    + destruct x; [auto | discriminate].
  - cbn [all_bits]. rewrite in_app_iff, !in_map_iff. split.
    + intros [[y [<- Hy]]|[y [<- Hy]]]; simpl; f_equal; now apply IH.
    + destruct x as [|[|] x]; [discriminate| |]; intros [= H];
        [right | left]; exists x; split; auto; now apply IH.
Qed.

Lemma all_bits_NoDup (n : nat) : NoDup (all_bits n).
Proof.
  induction n as [|n IH].
  - simpl. constructor; [intros [] | constructor].
  - cbn [all_bits]. apply NoDup_app.
    + apply Injective_map_NoDup; [|exact IH]. intros x y [= H]. exact H.
    + apply Injective_map_NoDup; [|exact IH]. intros x y [= H]. exact H.
    + intros x H1 H2. apply in_map_iff in H1, H2.
      destruct H1 as [y [<- _]], H2 as [z [E _]]. discriminate.
Qed.

(** [all_bits (a + b)] lists the concatenations of a vector of [{0,1}^a]
    with a vector of [{0,1}^b]. *)
Lemma all_bits_add (a b : nat) :
  all_bits (a + b) =
    flat_map (fun x => map (app x) (all_bits b)) (all_bits a).
Proof.
  induction a as [|a IH].
  - simpl. rewrite app_nil_r. symmetry. apply map_id.
  - cbn [all_bits Nat.add]. rewrite IH, flat_map_app.
    f_equal; rewrite !flat_map_concat_map, concat_map, !map_map;
      f_equal; apply map_ext; intros x; rewrite map_map; reflexivity.
Qed.

Section Counting.

Variable T : Type.

Lemma filter_map_length (U : Type) (p : U -> bool) (g : T -> U)
  (l : list T) :
  length (filter p (map g l)) = length (filter (fun x => p (g x)) l).
Proof.
  induction l as [|x l IH]; simpl; [reflexivity|].
  destruct (p (g x)); simpl; now rewrite IH.
Qed.

Lemma filter_length_mono (p q : T -> bool) (l : list T) :
  (forall x, p x = true -> q x = true) ->
  (length (filter p l) <= length (filter q l))%nat.
Proof.
  intros H. induction l as [|x l IH]; simpl; [lia|].
  destruct (p x) eqn:E.
  - rewrite (H x E). simpl. lia.
  - destruct (q x); simpl; lia.
Qed.

Lemma filter_none (l : list T) : filter (fun _ => false) l = [].
Proof. induction l; simpl; auto. Qed.

(** Two different values of [f] are taken on disjoint parts of a list. *)
Lemma count_two_values (f : T -> Qc) (c c' : Qc) (l : list T) :
  c <> c' ->
  (length (filter (fun x => Qc_eqb (f x) c) l) +
   length (filter (fun x => Qc_eqb (f x) c') l) <= length l)%nat.
Proof.
  intros Hc. induction l as [|x l IH]; simpl; [lia|].
  destruct (Qc_eqb (f x) c) eqn:E1, (Qc_eqb (f x) c') eqn:E2; simpl;
    try lia.
  apply Qc_eqb_eq in E1, E2. congruence.
Qed.

End Counting.

Lemma dot_bit_false (a : Qc) (d : vector) (x : list bool) :
  dot (a :: d) (vector_of_bits (false :: x)) = dot d (vector_of_bits x).
Proof. simpl. ring. Qed.

Lemma dot_bit_true (a : Qc) (d : vector) (x : list bool) :
  dot (a :: d) (vector_of_bits (true :: x)) = a + dot d (vector_of_bits x).
Proof. simpl. ring. Qed.

Lemma Qc_eqb_shift (a y c : Qc) : Qc_eqb (a + y) c = Qc_eqb y (c - a).
Proof.
  destruct (Qc_eqb y (c - a)) eqn:E.
  - apply Qc_eqb_eq in E. apply Qc_eqb_eq. subst y. ring.
  - apply Qc_eqb_neq in E. apply Qc_eqb_neq. intros H. apply E.
    subst c. ring.
Qed.

(** The heart of Freivalds' bound: a row with a nonzero entry takes any
    given value on at most half of the vectors of [{0,1}^n]. *)
Lemma half_of_the_vectors (d : vector) :
  Exists (fun x => x <> 0) d ->
  forall c,
    (2 * length (filter (fun x => Qc_eqb (dot d (vector_of_bits x)) c)
                   (all_bits (length d))) <= 2 ^ length d)%nat.
Proof.
  induction d as [|a d IH]; intros Hd c.
  - inversion Hd.
  - cbn [length all_bits]. rewrite filter_app, length_app.
    rewrite !filter_map_length.
    rewrite (filter_ext _ (fun x => Qc_eqb (dot d (vector_of_bits x)) c))
      by (intros x; now rewrite dot_bit_false).
    rewrite (filter_ext (fun x => Qc_eqb (dot (a :: d) _) c)
               (fun x => Qc_eqb (dot d (vector_of_bits x)) (c - a)))
      by (intros x; now rewrite dot_bit_true, Qc_eqb_shift).
    rewrite Nat.pow_succ_r'.
    destruct (Qc_eq_dec a 0) as [Ha|Ha].
    + assert (Hd' : Exists (fun x => x <> 0) d)
        by (inversion Hd; [contradiction | assumption]).
      pose proof (IH Hd' c). pose proof (IH Hd' (c - a)). lia.
    + assert (Hne : c <> c - a).
      { intros H. apply Ha.
        replace a with (c - (c - a)) by ring. rewrite <- H. ring. }
      pose proof (count_two_values (fun x => dot d (vector_of_bits x))
                    (all_bits (length d)) Hne) as Hcount.
      rewrite all_bits_length in Hcount. lia.
Qed.

(** ** A wrong product has a row that exposes it *)

Lemma vsub_zero_eq (u v : vector) :
  length u = length v -> any_np (vsub u v) = false -> u = v.
Proof.
  revert v. induction u as [|a u IH]; intros [|b v] HL H; simpl in *;
    try discriminate; [reflexivity|].
  apply orb_false_elim in H. destruct H as [Hab Hrest].
  apply Qc_nonzero_false in Hab.
  f_equal.
  - replace a with (a - b + b) by ring. rewrite Hab. ring.
  - apply IH; [congruence | assumption].
Qed.

Lemma msub_zero_eq (P C : list vector) :
  Forall2 (fun u v => length u = length v) P C ->
  Forall (fun d => any_np d = false) (msub_rows P C) -> P = C.
Proof.
  induction 1 as [|u v P C Huv _ IH]; simpl; intros HD; [reflexivity|].
  inversion HD as [|? ? Hd HD']; subst.
  f_equal; [now apply vsub_zero_eq | now apply IH].
Qed.

Lemma msub_rows_lengths (p : nat) (P C : list vector) :
  Forall2 (fun u v => length u = length v) P C ->
  Forall (fun r => length r = p) P ->
  Forall (fun r => length r = p) (msub_rows P C).
Proof.
  induction 1 as [|u v P C Huv _ IH]; simpl; intros HP; [constructor|].
  inversion HP; subst. constructor; [|now apply IH].
  now apply vsub_length.
Qed.

Lemma zero_or_exposing (D : list vector) :
  Forall (fun d => any_np d = false) D \/
  exists d, In d D /\ any_np d = true.
Proof.
  induction D as [|d D [IH|[d' [Hin Hd']]]].
  - left. constructor.
  - destruct (any_np d) eqn:E.
    + right. exists d. split; [now left | exact E].
    + left. now constructor.
  - right. exists d'. split; [now right | exact Hd'].
Qed.

Section WrongProduct.

Variables (n : nat) (A B C : ndarray).
Hypothesis sqA : square n A.
Hypothesis sqB : square n B.
Hypothesis sqC : square n C.
Hypothesis wrong : matmul_np A B <> Ok C.

Lemma exposing_row :
  exists d, length d = n /\ Exists (fun x => x <> 0) d /\
    forall x, zero_residual A B C x = true ->
              Qc_eqb (dot d (vector_of_bits x)) 0 = true.
Proof.
  destruct (matmul_np_square sqA sqB) as [HP sP].
  destruct sqA as [wA [A0 A1]], sqB as [wB [B0 B1]], sqC as [wC [C0 C1]].
  set (P := matmul_rows (rows A) n (rows B)) in *.
  assert (HF : Forall2 (fun u v => length u = length v) P (rows C)).
  { apply same_shape_Forall2 with (p := n).
    - destruct sP as [[H _] _]. simpl in H. destruct wC. congruence.
    - destruct sP as [[_ H] _]. exact H.
    - rewrite <- C1. apply wC. }
  destruct (zero_or_exposing (msub_rows P (rows C))) as [Hz|[d [Hin Hd]]].
  - exfalso. apply wrong. rewrite HP. f_equal.
    apply msub_zero_eq in Hz; [|exact HF].
    destruct C as [c0 c1 cr]. simpl in *. subst. reflexivity.
  - exists d. split; [|split].
    + assert (HL : Forall (fun r => length r = n) (msub_rows P (rows C))).
      { apply msub_rows_lengths; [exact HF|].
        destruct sP as [[_ H] _]. exact H. }
      rewrite Forall_forall in HL. now apply HL.
    + now apply any_np_true.
    + intros x Hx. unfold zero_residual in Hx.
      apply negb_true_iff in Hx.
      rewrite (@residual_naive n A B C (vector_of_bits x)
                 (conj wA (conj A0 A1)) (conj wB (conj B0 B1))
                 (conj wC (conj C0 C1))) in Hx.
      unfold naive_residual in Hx. rewrite B1 in Hx. fold P in Hx.
      apply any_np_false in Hx. rewrite Forall_forall in Hx.
      apply Qc_eqb_eq. apply Hx. unfold matvec.
      apply in_map_iff. exists d. auto.
Qed.

(** At most half of the vectors of [{0,1}^n] have a zero residual. *)
Lemma at_most_half :
  (2 * length (filter (zero_residual A B C) (all_bits n)) <= 2 ^ n)%nat.
Proof.
  destruct exposing_row as [d [Hlen [Hd Hx]]].
  pose proof (half_of_the_vectors Hd 0) as Hhalf.
  rewrite Hlen in Hhalf.
  pose proof (filter_length_mono (zero_residual A B C)
                (fun x => Qc_eqb (dot d (vector_of_bits x)) 0)
                (all_bits n) Hx).
  lia.
Qed.

End WrongProduct.

(** ** Runs on a generator seeded with bits *)

Lemma Qc_of_bit (b : bool) :
  Qc_of_Z (int_of_word 0 2 (N.b2n b)) = if b then 1 else 0.
Proof. destruct b; reflexivity. Qed.

Lemma drawn_X_seeded (bits : list bool) (n i : nat) :
  drawn_X (seeded bits) n i = vector_of_bits (chunk bits n i).
Proof.
  unfold drawn_X, words, vector_of_bits, chunk. simpl.
  rewrite !map_map. apply map_ext. intros j. apply Qc_of_bit.
Qed.

Lemma chunk_app_0 (x y : list bool) :
  chunk (x ++ y) (length x) 0 = x.
Proof.
  unfold chunk. simpl.
  rewrite <- (tabulate_list false x) at 2.
  apply map_ext_in. intros j Hj. apply in_seq in Hj.
  apply app_nth1. lia.
Qed.

Lemma chunk_app_S (x y : list bool) (i : nat) :
  chunk (x ++ y) (length x) (S i) = chunk y (length x) i.
Proof.
  unfold chunk. apply map_ext. intros j.
  replace (S i * length x + j)%nat with (length x + (i * length x + j))%nat
    by (simpl; lia).
  apply app_nth2_plus.
Qed.

Lemma forallb_seq_S (f : nat -> bool) (k : nat) :
  forallb f (seq 0 (S k)) = f 0%nat && forallb (fun i => f (S i)) (seq 0 k).
Proof.
  cbn [seq forallb]. f_equal. rewrite <- seq_shift.
  induction (seq 0 k) as [|i l IH]; simpl; [reflexivity|]. now rewrite IH.
Qed.

Lemma first_nonzero_forallb (r : nat -> vector) (k s : nat) :
  match first_nonzero r s k with
  | Some _ => false
  | None => true
  end = forallb (fun i => negb (any_np (r i))) (seq s k).
Proof.
  revert s. induction k as [|k IH]; intros s; simpl; [reflexivity|].
  destruct (any_np (r s)); simpl; [reflexivity | apply IH].
Qed.

Lemma first_nonzero_ext (r r' : nat -> vector) (k s : nat) :
  (forall i, r i = r' i) -> first_nonzero r s k = first_nonzero r' s k.
Proof.
  intros H. revert s. induction k as [|k IH]; intros s; simpl;
    [reflexivity|].
  now rewrite H, IH.
Qed.

Section RunsOnBits.

Variables (n : nat) (A B C : ndarray).
Hypothesis sqA : square n A.
Hypothesis sqB : square n B.
Hypothesis sqC : square n C.

(** The verdict is [True] exactly when every chunk read passes. *)
Lemma accepts_seeded (k : nat) (bits : list bool) :
  accepts (is_correct_mult A B C (Z.of_nat k) (seeded bits)) =
    all_pass A B C n k bits.
Proof.
  rewrite (is_correct_mult_square sqA sqB sqC), Nat2Z.id.
  unfold all_pass, zero_residual.
  rewrite <- (first_nonzero_forallb
                (fun i => residual A B C (vector_of_bits (chunk bits n i)))).
  rewrite (first_nonzero_ext
             (fun i => residual A B C (drawn_X (seeded bits) n i))
             (fun i => residual A B C (vector_of_bits (chunk bits n i))))
    by (intros i; now rewrite drawn_X_seeded).
  destruct (first_nonzero _ 0 k); reflexivity.
Qed.

End RunsOnBits.

Lemma forallb_pointwise (T : Type) (f g : T -> bool) (l : list T) :
  (forall x, f x = g x) -> forallb f l = forallb g l.
Proof.
  intros H. induction l as [|x l IH]; simpl; [reflexivity|].
  now rewrite H, IH.
Qed.

Section Repetitions.

Variables (n : nat) (A B C : ndarray).

Lemma all_pass_app (k : nat) (x y : list bool) :
  length x = n ->
  all_pass A B C n (S k) (x ++ y) =
    zero_residual A B C x && all_pass A B C n k y.
Proof.
  intros <-. unfold all_pass. rewrite forallb_seq_S, chunk_app_0.
  f_equal. apply forallb_pointwise. intros i. now rewrite chunk_app_S.
Qed.

(** The sequences of [S k] chunks that pass are the passing first chunks
    followed by the sequences of [k] chunks that pass. *)
Lemma count_all_pass_S (k : nat) (L l : list (list bool)) :
  Forall (fun x => length x = n) l ->
  length (filter (all_pass A B C n (S k))
            (flat_map (fun x => map (app x) L) l)) =
  (length (filter (zero_residual A B C) l) *
   length (filter (all_pass A B C n k) L))%nat.
Proof.
  induction 1 as [|x l Hx _ IH]; [reflexivity|].
  cbn [flat_map filter]. rewrite filter_app, length_app, IH.
  rewrite filter_map_length.
  destruct (zero_residual A B C x) eqn:E.
  - rewrite (filter_ext _ (all_pass A B C n k))
      by (intros y; now rewrite all_pass_app, E).
    cbn [length]. lia.
  - rewrite (filter_ext _ (fun _ => false))
      by (intros y; now rewrite all_pass_app, E).
    now rewrite filter_none.
Qed.

Hypothesis sqA : square n A.
Hypothesis sqB : square n B.
Hypothesis sqC : square n C.
Hypothesis wrong : matmul_np A B <> Ok C.

(** Of the [2 ^ (k * n)] equally likely bit sequences that [k]
    repetitions read, at most one in [2 ^ k] passes them all. *)
Lemma all_pass_bound (k : nat) :
  (2 ^ k * length (filter (all_pass A B C n k) (all_bits (k * n)))
   <= 2 ^ (k * n))%nat.
Proof.
  induction k as [|k IH].
  - simpl. lia.
  - cbn [Nat.mul]. rewrite all_bits_add, count_all_pass_S
      by (apply Forall_forall; intros x; apply all_bits_In).
    pose proof (at_most_half sqA sqB sqC wrong) as Hhalf.
    rewrite Nat.pow_succ_r', Nat.pow_add_r.
    set (z := length (filter (zero_residual A B C) (all_bits n))) in *.
    set (c := length (filter (all_pass A B C n k) (all_bits (k * n)))) in *.
    replace (2 * 2 ^ k * (z * c))%nat
      with ((2 * z) * (2 ^ k * c))%nat by lia.
    now apply Nat.mul_le_mono.
Qed.

End Repetitions.

(** Freivalds' bound in exact arithmetic.  Let [C] differ from the product
    of the square arrays [A] and [B].  Of the [2 ^ n] vectors of [{0,1}^n],
    at most half have a zero residual [A @ (B @ X) - C @ X], whatever [n]
    is; and when every operation of the run is exact, of the [2 ^ (k * n)]
    equally likely bit sequences that [k] repetitions of [is_correct_mult]
    can draw, at most a fraction [2 ^ -k] make the call return [True]. *)
Theorem bounded_one_sided_error (n : nat) (A B C : ndarray) :
  square n A -> square n B -> square n C ->
  matmul_np A B <> Ok C ->
  length (all_bits n) = (2 ^ n)%nat /\
  (2 * length (filter (zero_residual A B C) (all_bits n)) <= 2 ^ n)%nat /\
  (forall k : nat,
     length (all_bits (k * n)) = (2 ^ (k * n))%nat /\
     (2 ^ k *
      length (filter
                (fun bits =>
                   accepts (is_correct_mult A B C (Z.of_nat k) (seeded bits)))
                (all_bits (k * n)))
      <= 2 ^ (k * n))%nat).
Proof.
  intros sA sB sC Hwrong. split; [apply all_bits_length|]. split.
  - now apply at_most_half.
  - intros k. split; [apply all_bits_length|].
    rewrite (filter_ext _ (all_pass A B C n k))
      by (intros bits; now apply accepts_seeded).
    now apply all_pass_bound.
Qed.

Lemma sample_wrong_product : matmul_np sample_A sample_B <> Ok sample_C_wrong.
Proof. rewrite sample_product. intros H. discriminate H. Qed.

Lemma bounded_one_sided_error_witness :
  length (all_bits 2) = (2 ^ 2)%nat /\
  (2 * length (filter (zero_residual sample_A sample_B sample_C_wrong)
                 (all_bits 2)) <= 2 ^ 2)%nat /\
  (forall k : nat,
     length (all_bits (k * 2)) = (2 ^ (k * 2))%nat /\
     (2 ^ k *
      length (filter
                (fun bits =>
                   accepts (is_correct_mult sample_A sample_B sample_C_wrong
                              (Z.of_nat k) (seeded bits)))
                (all_bits (k * 2)))
      <= 2 ^ (k * 2))%nat).
Proof.
  apply (@bounded_one_sided_error 2 sample_A sample_B sample_C_wrong).
  - apply squareb_correct. reflexivity.
  - apply squareb_correct. reflexivity.
  - apply squareb_correct. reflexivity.
  - exact sample_wrong_product.
Defined.

(** ** Draws of the case generator *)

Lemma unit_of_word_range (w : N) : 0 <= unit_of_word w /\ unit_of_word w < 1.
Proof.
  assert (Hw : (0 <= Z.of_N (w mod 2 ^ 53) < 9007199254740992)%Z).
  { assert (H : (w mod 2 ^ 53 < 2 ^ 53)%N) by (apply N.mod_lt; discriminate).
    apply N2Z.inj_lt in H.
    change (Z.of_N (2 ^ 53)) with 9007199254740992%Z in H.
    split; [apply N2Z.is_nonneg | exact H]. }
  unfold unit_of_word, Qcle, Qclt. cbn [this Q2Qc].
  rewrite !Qred_correct. unfold Qle, Qlt. cbn [Qnum Qden].
  change (Z.pos (2 ^ 53)) with 9007199254740992%Z.
  set (m := Z.of_N (w mod 2 ^ 53)) in *. clearbody m. lia.
Qed.

Lemma random_rows_eq (r c : nat) (st : RandomState) :
  exists rs,
    random_rows r c st = (Ok rs, advance st (r * c)) /\
    length rs = r /\
    Forall (fun row => length row = c) rs /\
    Forall (Forall (fun x => 0 <= x /\ x < 1)) rs.
Proof.
  revert st. induction r as [|r IH]; intros st.
  - exists []. simpl. unfold ret. rewrite advance_0. auto.
  - destruct (IH (advance st c)) as [rs [E [HL [HF HR]]]].
    exists (map unit_of_word (words st c) :: rs).
    cbn [random_rows]. unfold bind. rewrite next_words_eq, E. unfold ret.
    rewrite advance_advance. repeat split.
    + simpl. now rewrite HL.
    + constructor; [|exact HF]. now rewrite length_map, words_length.
    + constructor; [|exact HR]. apply Forall_forall. intros x Hx.
      apply in_map_iff in Hx. destruct Hx as [w [<- _]].
      apply unit_of_word_range.
Qed.

Lemma random_matrix_eq (n : Z) (st : RandomState) :
  (0 <= n)%Z ->
  exists M,
    random_matrix n n st =
      (Ok M, advance st (Z.to_nat n * Z.to_nat n)) /\
    square (Z.to_nat n) M /\
    Forall (Forall (fun x => 0 <= x /\ x < 1)) (rows M).
Proof.
  intros Hn. unfold random_matrix.
  destruct (Z.ltb_spec n 0) as [L|_]; [lia|]. cbn [orb].
  destruct (random_rows_eq (Z.to_nat n) (Z.to_nat n) st)
    as [rs [E [HL [HF HR]]]].
  eexists. unfold bind. rewrite E. unfold ret.
  split; [reflexivity|]. split; [|exact HR].
  repeat split; assumption.
Qed.

Lemma int_of_word_range (n : Z) (w : N) :
  (0 < n)%Z -> (0 <= int_of_word 0 n w < n)%Z.
Proof.
  intros Hn. unfold int_of_word. rewrite Z.sub_0_r. simpl.
  apply Z.mod_pos_bound. exact Hn.
Qed.

Lemma norm_index_in_range (len : nat) (i : Z) :
  (0 <= i < Z.of_nat len)%Z -> norm_index len i = Some (Z.to_nat i).
Proof.
  intros H. unfold norm_index.
  destruct (Z.leb_spec 0 i); [|lia].
  destruct (Z.ltb_spec i (Z.of_nat len)); [|lia]. reflexivity.
Qed.

(** ** Updating one cell *)

Section UpdateNth.

Variables (T : Type) (f : T -> T) (d : T).

Lemma update_nth_length (k : nat) (l : list T) :
  length (update_nth k f l) = length l.
Proof.
  revert k. induction l as [|x l IH]; intros [|k]; simpl; auto.
Qed.

Lemma nth_update_nth_same (k : nat) (l : list T) :
  (k < length l)%nat -> nth k (update_nth k f l) d = f (nth k l d).
Proof.
  revert k. induction l as [|x l IH]; intros [|k] H; simpl in *;
    try lia; auto. apply IH. lia.
Qed.

Lemma nth_update_nth_other (k k' : nat) (l : list T) :
  k <> k' -> nth k' (update_nth k f l) d = nth k' l d.
Proof.
  revert k k'. induction l as [|x l IH]; intros [|k] [|k'] H; simpl;
    try congruence; auto.
Qed.

Lemma update_nth_Forall (P : T -> Prop) (k : nat) (l : list T) :
  (forall x, P x -> P (f x)) -> Forall P l -> Forall P (update_nth k f l).
Proof.
  intros Hf. revert k. induction l as [|x l IH]; intros [|k] H; simpl;
    inversion H; subst; constructor; auto.
Qed.

End UpdateNth.

Lemma add_at_spec (n : nat) (M : ndarray) (i j : nat) (t : Qc) :
  square n M -> (i < n)%nat -> (j < n)%nat ->
  exists M',
    add_at M (Z.of_nat i) (Z.of_nat j) t = Ok M' /\
    square n M' /\
    cell M' i j = cell M i j + t /\
    (forall i' j', (i', j') <> (i, j) -> cell M' i' j' = cell M i' j').
Proof.
  intros [[HL HF] [M0 M1]] Hi Hj. unfold add_at.
  rewrite (@norm_index_in_range (shape0 M) (Z.of_nat i)) by lia.
  rewrite (@norm_index_in_range (shape1 M) (Z.of_nat j)) by lia.
  rewrite !Nat2Z.id.
  eexists. split; [reflexivity|].
  assert (Hi' : (i < length (rows M))%nat) by (rewrite HL; lia).
  assert (Hrow : length (nth i (rows M) []) = n).
  { rewrite Forall_forall in HF. rewrite <- M1. apply HF.
    now apply nth_In. }
  split; [|split].
  - unfold square, wf_ndarray. cbn [shape0 shape1 rows].
    rewrite update_nth_length. repeat split; auto.
    apply update_nth_Forall; [|exact HF].
    intros r Hr. now rewrite update_nth_length.
  - unfold cell. cbn [rows].
    rewrite nth_update_nth_same by exact Hi'.
    rewrite nth_update_nth_same by lia. reflexivity.
  - intros i' j' Hne. unfold cell. cbn [rows].
    destruct (Nat.eq_dec i i') as [<-|Hdiff].
    + rewrite nth_update_nth_same by exact Hi'.
      rewrite nth_update_nth_other; [reflexivity|]. congruence.
    + now rewrite nth_update_nth_other.
Qed.

(** ** The case generator *)

(** What [make_test n] returns for [n >= 1], in terms of the words it reads:
    [2 * n * n] words for [A] and [B], two for the cell and one for the
    amount added to it. *)
Lemma make_test_spec (n : Z) (st : RandomState) :
  (1 <= n)%Z ->
  let N := Z.to_nat n in
  exists A B P C i j t,
    make_test n st = (Ok (A, B, C), advance st (N * N + N * N + 2 + 1)) /\
    square N A /\ square N B /\ square N C /\
    Forall (Forall (fun x => 0 <= x /\ x < 1)) (rows A) /\
    Forall (Forall (fun x => 0 <= x /\ x < 1)) (rows B) /\
    matmul_np A B = Ok P /\
    (i < N)%nat /\ (j < N)%nat /\
    Z.of_nat i = int_of_word 0 n (tape st (pos st + (N * N + N * N))) /\
    Z.of_nat j = int_of_word 0 n (tape st (pos st + (N * N + N * N) + 1)) /\
    t = unit_of_word (tape st (pos st + (N * N + N * N + 2))) /\
    0 <= t /\ t < 1 /\
    cell C i j = cell P i j + t /\
    (forall i' j', (i', j') <> (i, j) -> cell C i' j' = cell P i' j').
Proof.
  intros Hn N.
  destruct (@random_matrix_eq n st ltac:(lia)) as [A [EA [sA rA]]].
  destruct (@random_matrix_eq n (advance st (N * N)) ltac:(lia))
    as [B [EB [sB rB]]].
  fold N in EA, EB, sA, sB.
  destruct (matmul_np_square sA sB) as [EP sP].
  set (P := mk_ndarray N N (matmul_rows (rows A) N (rows B))) in *.
  set (st2 := advance (advance st (N * N)) (N * N)) in *.
  set (iz := int_of_word 0 n (tape st2 (pos st2))).
  set (jz := int_of_word 0 n (tape st2 (pos st2 + 1))).
  set (t := unit_of_word (tape st2 (pos st2 + 2))).
  assert (Hiz : (0 <= iz < n)%Z) by (apply int_of_word_range; lia).
  assert (Hjz : (0 <= jz < n)%Z) by (apply int_of_word_range; lia).
  assert (HiN : (Z.to_nat iz < N)%nat) by (unfold N; lia).
  assert (HjN : (Z.to_nat jz < N)%nat) by (unfold N; lia).
  destruct (@add_at_spec N P (Z.to_nat iz) (Z.to_nat jz) t sP HiN HjN)
    as [C [EC [sC [Hcell Hother]]]].
  rewrite !Z2Nat.id in EC by lia.
  exists A, B, P, C, (Z.to_nat iz), (Z.to_nat jz), t.
  destruct (unit_of_word_range (tape st2 (pos st2 + 2))) as [Ht0 Ht1].
  repeat match goal with |- _ /\ _ => split end; try assumption.
  - unfold make_test, bind. rewrite EA, EB. unfold lift. rewrite EP.
    rewrite randint_eq by lia. fold st2.
    unfold words. cbn [seq map]. rewrite Nat.add_0_r. fold iz jz.
    unfold random_sample, bind, next_word, ret.
    cbn [tape pos advance]. fold t. rewrite EC.
    unfold st2. rewrite !advance_advance. do 2 f_equal. lia.
  - rewrite Z2Nat.id by lia. unfold iz, st2. cbn [tape pos advance].
    do 2 f_equal. lia.
  - rewrite Z2Nat.id by lia. unfold jz, st2. cbn [tape pos advance].
    do 2 f_equal. lia.
  - unfold t, st2. cbn [tape pos advance]. do 2 f_equal. lia.
Qed.

(** Square arrays with the same cells are equal. *)
Lemma square_ext (n : nat) (P C : ndarray) :
  square n P -> square n C ->
  (forall i j, cell C i j = cell P i j) -> C = P.
Proof.
  destruct P as [p0 p1 pr], C as [c0 c1 cr]. unfold square, wf_ndarray, cell.
  cbn [shape0 shape1 rows].
  intros [[PL PF] [-> ->]] [[CL CF] [-> ->]] H.
  f_equal. apply nth_ext with (d := []) (d' := []); [congruence|].
  intros i Hi. rewrite Forall_forall in PF, CF.
  apply nth_ext with (d := 0) (d' := 0).
  - rewrite CF by (apply nth_In; lia). symmetry.
    apply PF. apply nth_In. lia.
  - intros j _. apply H.
Qed.

(** When the amount drawn is zero, the result is the product itself. *)
Lemma make_test_zero_draw (n : Z) (st : RandomState) :
  (1 <= n)%Z ->
  unit_of_word
    (tape st (pos st + (Z.to_nat n * Z.to_nat n +
                        Z.to_nat n * Z.to_nat n + 2))) = 0 ->
  exists A B C,
    make_test n st =
      (Ok (A, B, C),
       advance st (Z.to_nat n * Z.to_nat n + Z.to_nat n * Z.to_nat n + 2 + 1))
    /\ square (Z.to_nat n) A /\ square (Z.to_nat n) B
    /\ matmul_np A B = Ok C.
Proof.
  intros Hn Ht.
  destruct (@make_test_spec n st Hn)
    as (A & B & P & C & i & j & t & E & sA & sB & sC & _ & _ & EP & Hi & Hj &
        _ & _ & Et & _ & _ & Hcell & Hother).
  rewrite Ht in Et. subst t.
  exists A, B, C. repeat match goal with |- _ /\ _ => split end;
    try assumption.
  rewrite EP. f_equal. symmetry.
  destruct (matmul_np_square sA sB) as [EP' sP].
  rewrite EP in EP'. injection EP' as ->.
  apply (square_ext sP sC). intros i' j'.
  destruct (Nat.eq_dec i' i) as [->|Hi'];
    [destruct (Nat.eq_dec j' j) as [->|Hj']|].
  - rewrite Hcell. ring.
  - apply Hother. congruence.
  - apply Hother. congruence.
Qed.

Lemma instance_eq (A B C A' B' C' : ndarray) (st st' : RandomState) :
  ndarray_eqb A A' = true -> ndarray_eqb B B' = true ->
  ndarray_eqb C C' = true -> st = st' ->
  (Ok (A, B, C), st) = (Ok (A', B', C'), st').
Proof.
  intros HA HB HC ->.
  apply ndarray_eqb_eq in HA, HB, HC. now subst.
Qed.

(** C4 at the input where it fails.  [np.random.random()] draws from the
    half-open interval [0.0, 1.0): on a generator whose last word yields
    [0.0], [make_test 2] adds nothing to the chosen cell and returns the
    exact product [A @ B], which [is_correct_mult] then accepts at every
    repetition: the instance is not incorrect. *)
Theorem make_test_can_return_the_product :
  make_test 2 unlucky_state =
    (Ok (unlucky_A, unlucky_B, unlucky_C), advance unlucky_state 11) /\
  matmul_np unlucky_A unlucky_B = Ok unlucky_C /\
  (forall st,
     is_correct_mult unlucky_A unlucky_B unlucky_C 2 st =
       (Ok true, advance st 4)).
Proof.
  assert (EP : matmul_np unlucky_A unlucky_B = Ok unlucky_C).
  { unfold matmul_np. simpl. apply f_equal. apply ndarray_eqb_eq.
    reflexivity. }
  split; [|split].
  - vm_compute. apply instance_eq; reflexivity.
  - exact EP.
  - intros st. apply (@product_accepted 2); try exact EP;
      apply squareb_correct; reflexivity.
Qed.

(** ** The experiment *)

Lemma is_correct_mult_total (n : nat) (A B C : ndarray) (k : Z)
  (st : RandomState) :
  square n A -> square n B -> square n C ->
  exists b st', is_correct_mult A B C k st = (Ok b, st').
Proof.
  intros sA sB sC. unfold is_correct_mult.
  apply freivalds_loop_compatible; try apply sA; try apply sB; try apply sC.
  now apply square_shapes_compatible with (n := n).
Qed.

(** A trial on a dimension [n >= 1] never raises. *)
Lemma trial_total (n : Z) (st : RandomState) :
  (1 <= n)%Z -> exists v st', trial n st = (Ok v, st').
Proof.
  intros Hn.
  destruct (@make_test_spec n st Hn)
    as (A & B & P & C & i & j & t & E & sA & sB & sC & _).
  unfold trial, bind. rewrite E.
  set (st0 := advance st _).
  destruct (@is_correct_mult_total _ A B C 1 st0 sA sB sC) as [v1 [st1 E1]].
  rewrite E1.
  destruct (@is_correct_mult_total _ A B C 2 st1 sA sB sC) as [v2 [st2 E2]].
  rewrite E2. unfold ret. eauto.
Qed.

Lemma detections_cons (v : bool * bool) (log : list (bool * bool)) :
  detections (v :: log) = bump (detections log) (fst v) /\
  detections_with_k2 (v :: log) = bump (detections_with_k2 log) (snd v).
Proof.
  unfold detections, detections_with_k2, bump. cbn [filter].
  destruct v as [[|] [|]]; cbn [fst snd negb length]; lia.
Qed.

Lemma detections_range (log : list (bool * bool)) :
  (0 <= detections log <= Z.of_nat (length log))%Z /\
  (0 <= detections_with_k2 log <= Z.of_nat (length log))%Z.
Proof.
  unfold detections, detections_with_k2.
  pose proof (filter_length_le (fun v : bool * bool => negb (fst v)) log).
  pose proof (filter_length_le (fun v : bool * bool => negb (snd v)) log).
  lia.
Qed.

(** The counters of the inner loop count the verdicts [False] of the
    trials it runs. *)
Lemma trials_loop_counts (n : Z) (iters : nat) :
  (1 <= n)%Z ->
  forall (g1 g2 : Z) (st : RandomState),
  exists log st',
    trials_log n iters st = (Ok log, st') /\
    length log = iters /\
    trials_loop n iters g1 g2 st =
      (Ok ((g1 + detections log)%Z, (g2 + detections_with_k2 log)%Z), st').
Proof.
  intros Hn. induction iters as [|it IH]; intros g1 g2 st.
  - exists [], st. cbn. unfold ret. repeat split.
    now rewrite !Z.add_0_r.
  - destruct (trial_total st Hn) as [v [st1 Ev]].
    destruct (IH (bump g1 (fst v)) (bump g2 (snd v)) st1)
      as [log [st' [El [HL Et]]]].
    exists (v :: log), st'.
    cbn [trials_log trials_loop]. unfold bind. rewrite Ev, El, Et.
    unfold ret. repeat split.
    + simpl. now rewrite HL.
    + destruct (detections_cons v log) as [-> ->].
      apply f_equal2; [|reflexivity]. apply f_equal.
      apply f_equal2; unfold bump; lia.
Qed.

Lemma sweep_loop_counts (trials : Z) (ns : list Z) :
  Forall (fun n => (1 <= n)%Z) ns ->
  forall (gc gc2 : list Z) (st : RandomState),
  exists logs st',
    sweep_log ns trials st = (Ok logs, st') /\
    length logs = length ns /\
    Forall (fun log => length log = Z.to_nat trials) logs /\
    sweep_loop ns trials gc gc2 st =
      (Ok (gc ++ map detections logs, gc2 ++ map detections_with_k2 logs),
       st').
Proof.
  induction 1 as [|n ns Hn _ IH]; intros gc gc2 st.
  - exists [], st. cbn. unfold ret. rewrite !app_nil_r. auto.
  - destruct (@trials_loop_counts n (Z.to_nat trials) Hn 0%Z 0%Z st)
      as [log [st1 [El [HL Et]]]].
    destruct (IH (gc ++ [detections log]) (gc2 ++ [detections_with_k2 log])
                st1) as [logs [st' [Els [HLs [HF Es]]]]].
    exists (log :: logs), st'.
    cbn [sweep_log sweep_loop]. unfold bind. rewrite El, Els, Et.
    cbn [fst snd]. rewrite !Z.add_0_l, Es. unfold ret.
    repeat split.
    + simpl. now rewrite HLs.
    + now constructor.
    + cbn [map]. now rewrite <- !app_assoc.
Qed.

Lemma range_length (a b : Z) : length (range a b) = Z.to_nat (b - a).
Proof. unfold range. now rewrite length_map, length_seq. Qed.

Lemma range_bounds (a b : Z) :
  Forall (fun n => (a <= n < b)%Z) (range a b).
Proof.
  unfold range. apply Forall_forall. intros n Hn.
  apply in_map_iff in Hn. destruct Hn as [i [<- Hi]].
  apply in_seq in Hi. lia.
Qed.

Lemma range_nth (a b : Z) (i : nat) :
  (i < Z.to_nat (b - a))%nat -> nth i (range a b) 0%Z = (a + Z.of_nat i)%Z.
Proof.
  intros Hi. unfold range.
  rewrite (nth_indep _ 0%Z (a + Z.of_nat 0)%Z)
    by now rewrite length_map, length_seq.
  rewrite (map_nth (fun i => (a + Z.of_nat i)%Z)), seq_nth by exact Hi.
  reflexivity.
Qed.

(** A trial is one call of [make_test] followed by two calls of
    [is_correct_mult] on the instance it returned. *)
Lemma trial_inv (n : Z) (st st' : RandomState) (v : bool * bool) :
  trial n st = (Ok v, st') ->
  exists A B C st1 st2,
    make_test n st = (Ok (A, B, C), st1) /\
    is_correct_mult A B C 1 st1 = (Ok (fst v), st2) /\
    is_correct_mult A B C 2 st2 = (Ok (snd v), st').
Proof.
  unfold trial, bind.
  destruct (make_test n st) as [[[[A B] C]|e] st1]; [|discriminate].
  destruct (is_correct_mult A B C 1 st1) as [[v1|e] st2] eqn:E1;
    [|discriminate].
  destruct (is_correct_mult A B C 2 st2) as [[v2|e] st3] eqn:E2;
    [|discriminate].
  unfold ret. intros [= <- <-]. exists A, B, C, st1, st2. auto.
Qed.

Lemma trial_run_of_trial (n : Z) (st st' : RandomState) (v : bool * bool) :
  trial n st = (Ok v, st') -> trial_run n st v st'.
Proof.
  intros E. destruct (@trial_inv _ _ _ _ E)
    as (A & B & C & s1 & s2 & E1 & E2 & E3).
  destruct v as [v1 v2]. now apply trial_run_intro with s1 s2 A B C.
Qed.

Lemma trials_run_of_log (n : Z) (iters : nat) :
  forall (st st' : RandomState) (log : list (bool * bool)),
    trials_log n iters st = (Ok log, st') -> trials_run n st log st'.
Proof.
  induction iters as [|it IH]; intros st st' log E.
  - cbn in E. unfold ret in E. injection E as <- <-. constructor.
  - cbn [trials_log] in E. unfold bind in E.
    destruct (trial n st) as [[v|e] st1] eqn:Ev; [|discriminate].
    destruct (trials_log n it st1) as [[log'|e] st2] eqn:El; [|discriminate].
    unfold ret in E. injection E as <- <-.
    apply trials_run_cons with st1.
    + now apply trial_run_of_trial.
    + now apply IH.
Qed.

Lemma sweep_run_of_log (trials : Z) (a : Z) (count : nat) :
  forall (s : nat) (st st' : RandomState)
         (logs : list (list (bool * bool))),
    sweep_log (map (fun i => (a + Z.of_nat i)%Z) (seq s count)) trials st =
      (Ok logs, st') ->
    Forall (fun log => length log = Z.to_nat trials) logs ->
    sweep_run (Z.to_nat trials) (a + Z.of_nat s) count st logs st'.
Proof.
  induction count as [|c IH]; intros s st st' logs E HF.
  - cbn in E. unfold ret in E. injection E as <- <-. constructor.
  - cbn [seq map sweep_log] in E. unfold bind in E.
    destruct (trials_log (a + Z.of_nat s) (Z.to_nat trials) st)
      as [[log|e] st1] eqn:El; [|discriminate].
    destruct (sweep_log (map (fun i => (a + Z.of_nat i)%Z) (seq (S s) c))
                trials st1) as [[logs'|e] st2] eqn:Els; [|discriminate].
    unfold ret in E. injection E as <- <-.
    inversion HF as [|? ? Hlen HF']; subst.
    apply sweep_run_next with st1.
    + now apply trials_run_of_log with (iters := Z.to_nat trials).
    + exact Hlen.
    + replace (a + Z.of_nat s + 1)%Z with (a + Z.of_nat (S s))%Z by lia.
      now apply IH.
Qed.

(** C9. The sweep over the dimensions [lo], ..., [hi], with [1 <= lo],
    [lo <= hi + 1] (the range may be empty) and [trials >= 0], completes
    and returns two lists of length [hi - lo + 1].  Started in the
    generator state [st], it performs [trials] trials on dimension [lo],
    then on [lo + 1], and so on up to [hi], every trial being one call of
    [make_test] and two calls of [is_correct_mult] on the instance obtained
    ([k = 1], then [k = 2]), each call starting in the state the previous
    one left.  Entry [i] of each list is the number of those trials on
    dimension [lo + i] whose call, with [k = 1] for the first list and
    [k = 2] for the second, returned [False]; it lies between 0 and
    [trials]. *)
Theorem experiment_output (lo hi trials : Z) (st : RandomState) :
  (1 <= lo)%Z -> (lo <= hi + 1)%Z -> (0 <= trials)%Z ->
  exists good_counts good_counts_with_k2 logs st',
    experiment lo hi trials st =
      (Ok (good_counts, good_counts_with_k2), st') /\
    sweep_run (Z.to_nat trials) lo (Z.to_nat (hi + 1 - lo)) st logs st' /\
    good_counts = map detections logs /\
    good_counts_with_k2 = map detections_with_k2 logs /\
    Z.of_nat (length good_counts) = (hi - lo + 1)%Z /\
    Z.of_nat (length good_counts_with_k2) = (hi - lo + 1)%Z /\
    Forall (fun log => Z.of_nat (length log) = trials) logs /\
    Forall (fun g => (0 <= g <= trials)%Z) good_counts /\
    Forall (fun g => (0 <= g <= trials)%Z) good_counts_with_k2.
Proof.
  intros Hlo Hhi Htr.
  assert (Hns : Forall (fun n => (1 <= n)%Z) (range lo (hi + 1))).
  { eapply Forall_impl; [|apply range_bounds]. cbv beta. intros n Hn. lia. }
  destruct (@sweep_loop_counts trials _ Hns [] [] st)
    as [logs [st' [El [HL [HF Es]]]]].
  rewrite range_length in HL.
  assert (Hlen : forall log, In log logs -> Z.of_nat (length log) = trials).
  { rewrite Forall_forall in HF. intros log Hin. rewrite (HF log Hin). lia. }
  exists (map detections logs), (map detections_with_k2 logs), logs, st'.
  repeat match goal with |- _ /\ _ => split end; auto.
  - rewrite <- (Z.add_0_r lo) at 1. change 0%Z with (Z.of_nat 0).
    now apply sweep_run_of_log.
  - rewrite length_map, HL. lia.
  - rewrite length_map, HL. lia.
  - now apply Forall_forall.
  - apply Forall_forall. intros g Hg. apply in_map_iff in Hg.
    destruct Hg as [log [<- Hin]].
    pose proof (detections_range log). rewrite (Hlen log Hin) in *. lia.
  - apply Forall_forall. intros g Hg. apply in_map_iff in Hg.
    destruct Hg as [log [<- Hin]].
    pose proof (detections_range log). rewrite (Hlen log Hin) in *. lia.
Qed.

Lemma experiment_output_witness :
  exists good_counts good_counts_with_k2 logs st',
    experiment 2 100 10000 (state_of []) =
      (Ok (good_counts, good_counts_with_k2), st') /\
    sweep_run (Z.to_nat 10000) 2 (Z.to_nat (100 + 1 - 2)) (state_of [])
      logs st' /\
    good_counts = map detections logs /\
    good_counts_with_k2 = map detections_with_k2 logs /\
    Z.of_nat (length good_counts) = (100 - 2 + 1)%Z /\
    Z.of_nat (length good_counts_with_k2) = (100 - 2 + 1)%Z /\
    Forall (fun log => Z.of_nat (length log) = 10000%Z) logs /\
    Forall (fun g => (0 <= g <= 10000)%Z) good_counts /\
    Forall (fun g => (0 <= g <= 10000)%Z) good_counts_with_k2.
Proof.
  apply (@experiment_output 2 100 10000 (state_of [])); lia.
Defined.

(** * Further properties of the code *)

(** ** Repetitions compose *)

(** Running [a + b] iterations is running [a] of them and, when they all
    pass, [b] more from the state reached; this holds for arrays of any
    shape, errors included. *)
Lemma freivalds_loop_add (A B C : ndarray) (n a b : nat) (st : RandomState) :
  freivalds_loop A B C n (a + b) st =
    match freivalds_loop A B C n a st with
    | (Ok true, st1) => freivalds_loop A B C n b st1
    | other => other
    end.
Proof.
  revert st. induction a as [|a IH]; intros st; [reflexivity|].
  cbn [Nat.add]. rewrite !freivalds_loop_step.
  destruct (residual_np A B C (drawn_X st n 0)) as [res|e]; [|reflexivity].
  destruct (any_np res); [reflexivity | apply IH].
Qed.

(** X1. [is_correct_mult] with [k1 + k2] repetitions is [is_correct_mult]
    with [k1] repetitions followed, when the verdict is [True], by
    [is_correct_mult] with [k2] repetitions from the generator state
    reached; a verdict [False] or an exception of the first run is the
    result of the whole run.  In particular the call with [k = 2] of the
    experiment is two chained calls with [k = 1]. *)
Theorem repetitions_compose (A B C : ndarray) (k1 k2 : Z)
  (st : RandomState) :
  (0 <= k1)%Z -> (0 <= k2)%Z ->
  is_correct_mult A B C (k1 + k2) st =
    match is_correct_mult A B C k1 st with
    | (Ok true, st1) => is_correct_mult A B C k2 st1
    | other => other
    end.
Proof.
  intros H1 H2. unfold is_correct_mult.
  rewrite Z2Nat.inj_add by assumption. apply freivalds_loop_add.
Qed.

Lemma repetitions_compose_witness :
  is_correct_mult sample_A sample_B sample_C_wrong (1 + 1)
    (state_of [1; 0; 0; 1]%N) =
    match is_correct_mult sample_A sample_B sample_C_wrong 1
            (state_of [1; 0; 0; 1]%N) with
    | (Ok true, st1) => is_correct_mult sample_A sample_B sample_C_wrong 1 st1
    | other => other
    end.
Proof.
  apply (@repetitions_compose sample_A sample_B sample_C_wrong 1 1
           (state_of [1; 0; 0; 1]%N)); lia.
Defined.

(** X2. More repetitions never turn a rejection into an acceptance: when
    the call with [k] repetitions returns [False] or raises, the call with
    any [k' >= k] from the same generator state returns the same result in
    the same final state; and when the call with [k'] repetitions returns
    [True], so does the call with any [k <= k']. *)
Theorem more_repetitions_keep_rejections (A B C : ndarray) (k k' : Z)
  (st : RandomState) :
  (k <= k')%Z ->
  (forall st', is_correct_mult A B C k st = (Ok false, st') ->
               is_correct_mult A B C k' st = (Ok false, st')) /\
  (forall e st', is_correct_mult A B C k st = (Raise e, st') ->
                 is_correct_mult A B C k' st = (Raise e, st')) /\
  (forall st', is_correct_mult A B C k' st = (Ok true, st') ->
               exists st1, is_correct_mult A B C k st = (Ok true, st1)).
Proof.
  intros Hk. unfold is_correct_mult.
  replace (Z.to_nat k') with (Z.to_nat k + (Z.to_nat k' - Z.to_nat k))%nat
    by lia.
  rewrite freivalds_loop_add.
  destruct (freivalds_loop A B C (shape0 A) (Z.to_nat k) st)
    as [[[|]|e] st1]; repeat split; intros; try discriminate; eauto.
Qed.

Lemma more_repetitions_keep_rejections_witness :
  (forall st',
     is_correct_mult sample_A sample_B sample_C_wrong 1
       (state_of [0; 1]%N) = (Ok false, st') ->
     is_correct_mult sample_A sample_B sample_C_wrong 2
       (state_of [0; 1]%N) = (Ok false, st')) /\
  (forall e st',
     is_correct_mult sample_A sample_B sample_C_wrong 1
       (state_of [0; 1]%N) = (Raise e, st') ->
     is_correct_mult sample_A sample_B sample_C_wrong 2
       (state_of [0; 1]%N) = (Raise e, st')) /\
  (forall st',
     is_correct_mult sample_A sample_B sample_C_wrong 2
       (state_of [0; 1]%N) = (Ok true, st') ->
     exists st1,
       is_correct_mult sample_A sample_B sample_C_wrong 1
         (state_of [0; 1]%N) = (Ok true, st1)).
Proof.
  apply (@more_repetitions_keep_rejections sample_A sample_B sample_C_wrong
           1 2 (state_of [0; 1]%N)).
  lia.
Defined.

(** ** Randomness consumed *)

Lemma freivalds_loop_draws (A B C : ndarray) (n iters : nat)
  (st : RandomState) :
  exists d, (d <= iters)%nat /\
    snd (freivalds_loop A B C n iters st) = advance st (d * n).
Proof.
  revert st. induction iters as [|it IH]; intros st.
  - exists 0%nat. split; [lia|]. simpl. now rewrite advance_0.
  - rewrite freivalds_loop_step.
    destruct (residual_np A B C (drawn_X st n 0)) as [res|e].
    + destruct (any_np res).
      * exists 1%nat. split; [lia|]. simpl. now rewrite Nat.add_0_r.
      * destruct (IH (advance st n)) as [d [Hd E]].
        exists (S d). split; [lia|]. rewrite E, advance_advance.
        reflexivity.
    + exists 1%nat. split; [lia|]. simpl. now rewrite Nat.add_0_r.
Qed.

(** X3. Whatever the arrays and the outcome (a verdict or an exception),
    [is_correct_mult] draws whole vectors of [n = A.shape[0]] words and at
    most [k] of them: the generator ends [d * n] words further for some
    [d <= max(k, 0)]. *)
Theorem draws_at_most_k_vectors (A B C : ndarray) (k : Z)
  (st : RandomState) :
  exists d, (Z.of_nat d <= Z.max k 0)%Z /\
    snd (is_correct_mult A B C k st) = advance st (d * shape0 A).
Proof.
  destruct (freivalds_loop_draws A B C (shape0 A) (Z.to_nat k) st)
    as [d [Hd E]].
  exists d. split; [lia | exact E].
Qed.

(** ** Bits of the drawn vectors *)



(** ** Edge cases of the case generator *)

Lemma make_test_raises (n : Z) (st : RandomState) :
  (n <= 0)%Z -> make_test n st = (Raise ValueError, st).
Proof.
  intros Hn. destruct (Z.eq_dec n 0) as [->|Hne]; [reflexivity|].
  unfold make_test, bind, random_matrix.
  destruct (Z.ltb_spec n 0) as [_|L]; [reflexivity | lia].
Qed.

(** X7. [make_test n] raises exactly when [n <= 0], and then it raises
    [ValueError] before any word is drawn: a negative [n] is refused by
    [np.random.random((n, n))], and [n = 0] by
    [np.random.randint(0, 0, 2)], whose range is empty. *)
Theorem make_test_rejects_nonpositive (n : Z) (st : RandomState) :
  ((n <= 0)%Z -> make_test n st = (Raise ValueError, st)) /\
  ((exists e st', make_test n st = (Raise e, st')) <-> (n <= 0)%Z).
Proof.
  split; [apply make_test_raises|]. split.
  - intros [e [st' E]].
    destruct (Z.le_gt_cases n 0) as [Hn|Hn]; [exact Hn|]. exfalso.
    destruct (@make_test_spec n st ltac:(lia))
      as (A & B & P & C & i & j & t & E' & _).
    rewrite E' in E. discriminate.
  - intros Hn. exists ValueError, st. now apply make_test_raises.
Qed.

(** ** The zero vector *)







(** ** Edge cases of the experiment *)

Lemma sweep_loop_no_trials (trials : Z) (ns : list Z) :
  (trials <= 0)%Z ->
  forall (gc gc2 : list Z) (st : RandomState),
    sweep_loop ns trials gc gc2 st =
      (Ok (gc ++ repeat 0%Z (length ns), gc2 ++ repeat 0%Z (length ns)), st).
Proof.
  intros Ht. induction ns as [|n ns IH]; intros gc gc2 st.
  - cbn. unfold ret. now rewrite !app_nil_r.
  - cbn [sweep_loop]. replace (Z.to_nat trials) with 0%nat by lia.
    unfold bind. cbn [trials_loop ret fst snd]. rewrite IH.
    cbn [length repeat]. now rewrite <- !app_assoc.
Qed.

Lemma range_cons (a b : Z) :
  (a < b)%Z -> exists ns, range a b = a :: ns.
Proof.
  intros H. unfold range.
  destruct (Z.to_nat (b - a)) as [|m] eqn:E; [lia|].
  cbn [seq map]. rewrite Z.add_0_r. eauto.
Qed.

Lemma range_empty (a b : Z) : (b <= a)%Z -> range a b = [].
Proof.
  intros H. unfold range. replace (Z.to_nat (b - a)) with 0%nat by lia.
  reflexivity.
Qed.

(** X10. When the sweep aborts.  With [trials <= 0] the sweep calls
    nothing and returns two lists of zeros, one entry per dimension.
    Otherwise it raises exactly when its range is not empty and starts at
    a dimension [lo <= 0]: the exception is the [ValueError] of the first
    call of [make_test], no list is returned and no word has been drawn. *)
Theorem experiment_abort_condition (lo hi trials : Z) (st : RandomState) :
  ((trials <= 0)%Z ->
   experiment lo hi trials st =
     (Ok (repeat 0%Z (Z.to_nat (hi + 1 - lo)),
          repeat 0%Z (Z.to_nat (hi + 1 - lo))), st)) /\
  ((lo <= 0)%Z -> (lo <= hi)%Z -> (1 <= trials)%Z ->
   experiment lo hi trials st = (Raise ValueError, st)) /\
  ((exists e st', experiment lo hi trials st = (Raise e, st')) <->
   (lo <= 0)%Z /\ (lo <= hi)%Z /\ (1 <= trials)%Z).
Proof.
  assert (Hzero : (trials <= 0)%Z ->
    experiment lo hi trials st =
      (Ok (repeat 0%Z (Z.to_nat (hi + 1 - lo)),
           repeat 0%Z (Z.to_nat (hi + 1 - lo))), st)).
  { intros Ht. unfold experiment.
    rewrite sweep_loop_no_trials by exact Ht. now rewrite range_length. }
  assert (Habort : (lo <= 0)%Z -> (lo <= hi)%Z -> (1 <= trials)%Z ->
    experiment lo hi trials st = (Raise ValueError, st)).
  { intros Hlo Hhi Ht. unfold experiment.
    destruct (@range_cons lo (hi + 1) ltac:(lia)) as [ns ->].
    cbn [sweep_loop]. destruct (Z.to_nat trials) as [|it] eqn:E; [lia|].
    cbn [trials_loop]. unfold bind, trial, bind.
    now rewrite make_test_raises by exact Hlo. }
  split; [exact Hzero|]. split; [exact Habort|]. split.
  - intros [e [st' E]].
    destruct (Z.le_gt_cases trials 0) as [Ht|Ht];
      [rewrite (Hzero Ht) in E; discriminate|].
    destruct (Z.le_gt_cases lo hi) as [Hhi|Hhi].
    + destruct (Z.le_gt_cases lo 0) as [Hlo|Hlo]; [lia|].
      exfalso.
      assert (Hns : Forall (fun n => (1 <= n)%Z) (range lo (hi + 1))).
      { eapply Forall_impl; [|apply range_bounds]. cbv beta. intros n Hn.
        lia. }
      destruct (@sweep_loop_counts trials _ Hns [] [] st)
        as [logs [st1 [_ [_ [_ Es]]]]].
      unfold experiment in E. rewrite Es in E. discriminate.
    + exfalso. unfold experiment in E.
      rewrite range_empty in E by lia. discriminate.
  - intros [Hlo [Hhi Ht]]. exists ValueError, st. now apply Habort.
Qed.

Lemma range_snoc (a b : Z) :
  (a <= b)%Z -> range a (b + 1) = range a b ++ [b].
Proof.
  intros H. unfold range.
  replace (Z.to_nat (b + 1 - a)) with (S (Z.to_nat (b - a))) by lia.
  rewrite seq_S, map_app. cbn [map]. do 2 f_equal. lia.
Qed.

Lemma sweep_loop_app (trials : Z) (ns ms : list Z) :
  forall (gc gc2 : list Z) (st : RandomState),
    sweep_loop (ns ++ ms) trials gc gc2 st =
      match sweep_loop ns trials gc gc2 st with
      | (Ok g, st1) => sweep_loop ms trials (fst g) (snd g) st1
      | (Raise e, st1) => (Raise e, st1)
      end.
Proof.
  induction ns as [|n ns IH]; intros gc gc2 st; [reflexivity|].
  cbn [app sweep_loop]. unfold bind.
  destruct (trials_loop n (Z.to_nat trials) 0 0 st) as [[g|e] st1];
    [apply IH | reflexivity].
Qed.

(** X11. Extending the sweep by one dimension.  The sweep over
    [lo .. hi + 1] is the sweep over [lo .. hi] followed by the trials on
    dimension [hi + 1], run from the generator state the shorter sweep
    ends in: its two lists are those of the shorter sweep with one entry
    appended, and an exception of the shorter sweep is its result. *)
Theorem sweep_extends (lo hi trials : Z) (st : RandomState) :
  (lo <= hi + 1)%Z ->
  experiment lo (hi + 1) trials st =
    match experiment lo hi trials st with
    | (Ok g, st1) =>
        match trials_loop (hi + 1) (Z.to_nat trials) 0 0 st1 with
        | (Ok c, st2) => (Ok (fst g ++ [fst c], snd g ++ [snd c]), st2)
        | (Raise e, st2) => (Raise e, st2)
        end
    | (Raise e, st1) => (Raise e, st1)
    end.
Proof.
  intros H. unfold experiment.
  rewrite range_snoc by exact H. rewrite sweep_loop_app.
  destruct (sweep_loop (range lo (hi + 1)) trials [] [] st)
    as [[g|e] st1]; reflexivity.
Qed.

Lemma sweep_extends_witness :
  experiment 2 (2 + 1) 1 (state_of [1; 1; 1]%N) =
    match experiment 2 2 1 (state_of [1; 1; 1]%N) with
    | (Ok g, st1) =>
        match trials_loop (2 + 1) (Z.to_nat 1) 0 0 st1 with
        | (Ok c, st2) => (Ok (fst g ++ [fst c], snd g ++ [snd c]), st2)
        | (Raise e, st2) => (Raise e, st2)
        end
    | (Raise e, st1) => (Raise e, st1)
    end.
Proof.
  apply (@sweep_extends 2 2 1 (state_of [1; 1; 1]%N)). lia.
Defined.

(** * The verifier in binary64 arithmetic *)

(** ** Comparing arrays of rationals by computation *)

Lemma list_eqb_refl (T : Type) (eqb : T -> T -> bool) (l : list T) :
  (forall x, eqb x x = true) -> list_eqb eqb l l = true.
Proof.
  intros H. induction l as [|x l IH]; simpl; [reflexivity|].
  now rewrite H, IH.
Qed.

Lemma ndarray_eqb_neq (M N : ndarray) : ndarray_eqb M N = false -> M <> N.
Proof.
  intros H E. subst N. unfold ndarray_eqb in H.
  rewrite !Nat.eqb_refl in H. simpl in H.
  rewrite list_eqb_refl in H; [discriminate|].
  intros r. apply list_eqb_refl. intros x. now apply Qc_eqb_eq.
Qed.

Lemma matmul_np_eqb (A B C : ndarray) :
  Nat.eqb (shape1 A) (shape0 B) = true ->
  ndarray_eqb
    (mk_ndarray (shape0 A) (shape1 B)
       (matmul_rows (rows A) (shape1 B) (rows B))) C = true ->
  matmul_np A B = Ok C.
Proof.
  intros HS HE. unfold matmul_np. rewrite HS. f_equal.
  now apply ndarray_eqb_eq.
Qed.

Lemma matmul_np_neqb (A B C : ndarray) :
  Nat.eqb (shape1 A) (shape0 B) = true ->
  ndarray_eqb
    (mk_ndarray (shape0 A) (shape1 B)
       (matmul_rows (rows A) (shape1 B) (rows B))) C = false ->
  matmul_np A B <> Ok C.
Proof.
  intros HS HE. unfold matmul_np. rewrite HS. intros [= E].
  revert E. now apply ndarray_eqb_neq.
Qed.

(** ** A correct product that is rejected *)

(** C1 at an input where it fails.  The [float64] arrays [rounded_A],
    [rounded_B], [rounded_C] hold numbers with [C = A @ B] exactly.  With
    [X = [1, 1]] the residual the code computes is [[-2^-54, 0]], rounding
    alone making it nonzero, and [is_correct_mult] returns [False] in its
    first repetition for every [k >= 1]: a verdict [False] for a correct
    product.  In exact arithmetic the same run returns [True]. *)
Theorem float64_rejects_exact_product :
  Float64.all_finite rounded_A = true /\
  Float64.all_finite rounded_B = true /\
  Float64.all_finite rounded_C = true /\
  matmul_np (exact_array rounded_A) (exact_array rounded_B) =
    Ok (exact_array rounded_C) /\
  Float64.residual_np rounded_A rounded_B rounded_C [1; 1]%float =
    Ok [(-0x1p-54)%float; 0%float] /\
  (forall k, (1 <= k)%Z ->
     Float64.is_correct_mult rounded_A rounded_B rounded_C k
       (state_of [1; 1]%N) =
       (Ok false, advance (state_of [1; 1]%N) 2)) /\
  is_correct_mult (exact_array rounded_A) (exact_array rounded_B)
    (exact_array rounded_C) 1 (state_of [1; 1]%N) =
    (Ok true, advance (state_of [1; 1]%N) 2).
Proof.
  split; [reflexivity|]. split; [reflexivity|]. split; [reflexivity|].
  split; [apply matmul_np_eqb; vm_compute; reflexivity|].
  split; [reflexivity|]. split.
  - intros k Hk. unfold Float64.is_correct_mult.
    destruct (Z.to_nat k) as [|it] eqn:E; [lia|]. reflexivity.
  - vm_compute. reflexivity.
Qed.

(** ** A wrong product that is accepted *)

(** C2 at an input where it fails.  The [float64] arrays [absorbed_A],
    [absorbed_B], [absorbed_C] hold numbers with [C] different from the
    product [A @ B], which is [B] itself.  Of the four vectors of
    [{0,1}^2] only [[0, 1]] is rejected by one repetition: three of the
    four equally likely draws return [True], more than half, because
    [1 + 2^-60] and [1 + 2^-61] both round to [1].  In exact arithmetic two
    of the four are accepted. *)
Theorem float64_accepts_wrong_product :
  Float64.all_finite absorbed_A = true /\
  Float64.all_finite absorbed_B = true /\
  Float64.all_finite absorbed_C = true /\
  matmul_np (exact_array absorbed_A) (exact_array absorbed_B) =
    Ok (exact_array absorbed_B) /\
  matmul_np (exact_array absorbed_A) (exact_array absorbed_B) <>
    Ok (exact_array absorbed_C) /\
  filter
    (fun bits =>
       accepts (Float64.is_correct_mult absorbed_A absorbed_B absorbed_C 1
                  (seeded bits)))
    (all_bits 2) = [[false; false]; [true; false]; [true; true]] /\
  (2 ^ 2 <
   2 * length
         (filter
            (fun bits =>
               accepts
                 (Float64.is_correct_mult absorbed_A absorbed_B absorbed_C 1
                    (seeded bits)))
            (all_bits 2)))%nat /\
  filter
    (fun bits =>
       accepts (is_correct_mult (exact_array absorbed_A)
                  (exact_array absorbed_B) (exact_array absorbed_C) 1
                  (seeded bits)))
    (all_bits 2) = [[false; false]; [true; false]].
Proof.
  split; [reflexivity|]. split; [reflexivity|]. split; [reflexivity|].
  split; [apply matmul_np_eqb; vm_compute; reflexivity|].
  split; [apply matmul_np_neqb; vm_compute; reflexivity|].
  split; [vm_compute; reflexivity|].
  split; [vm_compute; lia|].
  vm_compute. reflexivity.
Qed.

(** ** A rounding residual below every scaled tolerance *)



